(** * Translation Alien: the session state machine and the lexicon of app.py

    A shallow embedding of the core of [app.py]: the three stage frames
    ([RecognitionFrame], [TranslationFrame], [TranslatorFrame]), the
    controller's [show_frame], the shared [GameState] and
    [build_reverse_dictionary].  Widget layout, colours and the JSON
    bootstrap are left out; what the callbacks read and write is kept:
    the Tk string variables, the enabled/disabled state of the "Suivant"
    button, the radio buttons of the current round, the labels and the
    frame that is raised. *)

From Stdlib Require Import NArith Ascii String.
From stdpp Require Import base tactics decidable option list numbers.

Local Open Scope N_scope.

(** ** Python strings

    A [str] is a sequence of Unicode code points. *)

Abbreviation pystr := (list N).

(** String literals of this file are UTF-8 text; [py] decodes one into
    its code points, so that [py "eau"] is the Python string ["eau"]. *)
Fixpoint utf8_decode (bs : list N) : pystr :=
  match bs with
  | [] => []
  | b :: rest =>
      if b <? 0x80 then b :: utf8_decode rest
      else if b <? 0xE0 then
        match rest with
        | b1 :: rest' =>
            ((b mod 0x20) * 0x40 + b1 mod 0x40) :: utf8_decode rest'
        | _ => []
        end
      else if b <? 0xF0 then
        match rest with
        | b1 :: b2 :: rest' =>
            ((b mod 0x10) * 0x1000 + (b1 mod 0x40) * 0x40 + b2 mod 0x40)
              :: utf8_decode rest'
        | _ => []
        end
      else
        match rest with
        | b1 :: b2 :: b3 :: rest' =>
            ((b mod 0x08) * 0x40000 + (b1 mod 0x40) * 0x1000
             + (b2 mod 0x40) * 0x40 + b3 mod 0x40)
              :: utf8_decode rest'
        | _ => []
        end
  end.

Definition py (s : string) : pystr :=
  utf8_decode (map N_of_ascii (list_ascii_of_string s)).
Arguments py : simpl never.

(** [str.isspace] on one code point: the characters [str.strip()] removes.
    This is CPython's whitespace table (bidirectional type WS, B or S, or
    category Zs). *)
Definition isspace (c : N) : bool :=
  ((0x09 <=? c) && (c <=? 0x0D)) || ((0x1C <=? c) && (c <=? 0x20))
  || (c =? 0x85) || (c =? 0xA0) || (c =? 0x1680)
  || ((0x2000 <=? c) && (c <=? 0x200A))
  || (c =? 0x2028) || (c =? 0x2029) || (c =? 0x202F) || (c =? 0x205F)
  || (c =? 0x3000).

Fixpoint lstrip (s : pystr) : pystr :=
  match s with
  | [] => []
  | c :: s' => if isspace c then lstrip s' else s
  end.

Definition rstrip (s : pystr) : pystr := reverse (lstrip (reverse s)).

(** [s.strip()] *)
Definition strip (s : pystr) : pystr := rstrip (lstrip s).

(** Truthiness of a [str], and [a or b] on strings. *)
Definition truthy (s : pystr) : bool :=
  match s with [] => false | _ => true end.

Definition str_or (a b : pystr) : pystr := if truthy a then a else b.

(** [str(n)] for a non-negative [int]. *)
Fixpoint digits (u : Decimal.uint) : pystr :=
  match u with
  | Decimal.Nil => []
  | Decimal.D0 u' => 0x30 :: digits u'
  | Decimal.D1 u' => 0x31 :: digits u'
  | Decimal.D2 u' => 0x32 :: digits u'
  | Decimal.D3 u' => 0x33 :: digits u'
  | Decimal.D4 u' => 0x34 :: digits u'
  | Decimal.D5 u' => 0x35 :: digits u'
  | Decimal.D6 u' => 0x36 :: digits u'
  | Decimal.D7 u' => 0x37 :: digits u'
  | Decimal.D8 u' => 0x38 :: digits u'
  | Decimal.D9 u' => 0x39 :: digits u'
  end.

Definition str_of_nat (n : nat) : pystr := digits (Nat.to_uint n).

(** [sep.join(parts)] *)
Fixpoint join (sep : pystr) (parts : list pystr) : pystr :=
  match parts with
  | [] => []
  | [p] => p
  | p :: rest => p ++ sep ++ join sep rest
  end.

(** ** Python dictionaries

    A [dict] keeps its entries in insertion order, one per key.
    [d[k] = v] overwrites the value of an existing key in place and
    appends a new key at the end; [d.get(k)] is [None] on a miss. *)

Abbreviation pydict := (list (pystr * pystr)).

Fixpoint dict_get (k : pystr) (d : pydict) : option pystr :=
  match d with
  | [] => None
  | (k', v) :: d' => if bool_decide (k' = k) then Some v else dict_get k d'
  end.

Fixpoint dict_set (k v : pystr) (d : pydict) : pydict :=
  match d with
  | [] => [(k, v)]
  | (k', v') :: d' =>
      if bool_decide (k' = k) then (k', v) :: d'
      else (k', v') :: dict_set k v d'
  end.

Definition dict_items (d : pydict) : list (pystr * pystr) := d.

Definition dict_keys (d : pydict) : list pystr := d.*1.

(** The [for] loop of [build_reverse_dictionary], with
    [reverse[glyphs] = french] as its body, from the value [reverse] has
    when the loop starts. *)
Definition reverse_loop (reverse : pydict) (items : list (pystr * pystr)) : pydict :=
  fold_left (fun reverse '(french, glyphs) => dict_set glyphs french reverse)
            items reverse.

Definition build_reverse_dictionary (dictionary : pydict) : pydict :=
  reverse_loop [] (dict_items dictionary).

(** ** Data classes *)

Record RecognitionChoice := {
  round_index : nat;
  selection : pystr
}.

Record TranslationAttempt := {
  french_word : pystr;
  typed_glyphs : pystr
}.

Record GameState := {
  font_label : pystr;
  recognition_rounds : list (list pystr);
  practice_words : list pystr;
  dictionary : pydict;
  recognition_choices : list RecognitionChoice;
  translation_attempts : list TranslationAttempt
}.

(** [GameState.reverse_dictionary] *)
Definition reverse_dictionary (st : GameState) : pydict :=
  build_reverse_dictionary (dictionary st).

(** ** The frames and the application object

    Of each frame the fields its callbacks read or write: the Tk
    variables, the texts of the labels, the state of the "Suivant" button
    and the radio buttons now in [buttons_frame] (one per symbol, each
    calling [record_choice] with its symbol). *)

Inductive widget_state := NORMAL | DISABLED.

Record RecognitionFrame := {
  selection_var : pystr;
  current_round : option nat;   (* [None]: attribute not set yet *)
  round_label : pystr;
  buttons_frame : list pystr;
  next_button : widget_state
}.

Record TranslationFrame := {
  index : nat;
  input_var : pystr;
  prompt_label : pystr
}.

Record TranslatorFrame := {
  custom_var : pystr;
  french_var : pystr;
  feedback_var : pystr;
  summary_text : pystr
}.

(** The keys of [TranslationAlienApp.frames]. *)
Inductive frame_name := start | recognition | translation | translator.

#[global] Instance frame_name_eq_dec : EqDecision frame_name.
Proof. solve_decision. Defined.

#[global] Instance widget_state_eq_dec : EqDecision widget_state.
Proof. solve_decision. Defined.

(** [state] is [TranslationAlienApp.state]; [raised] is the frame put on
    top of the others by the last [tkraise], the one the user acts on. *)
Record App := {
  state : GameState;
  recognition_frame : RecognitionFrame;
  translation_frame : TranslationFrame;
  translator_frame : TranslatorFrame;
  raised : frame_name
}.

(** *** Field updates *)

Definition set_recognition_choices (l : list RecognitionChoice) (a : App) : App :=
  {| state := {| font_label := font_label (state a);
                 recognition_rounds := recognition_rounds (state a);
                 practice_words := practice_words (state a);
                 dictionary := dictionary (state a);
                 recognition_choices := l;
                 translation_attempts := translation_attempts (state a) |};
     recognition_frame := recognition_frame a;
     translation_frame := translation_frame a;
     translator_frame := translator_frame a;
     raised := raised a |}.

Definition set_translation_attempts (l : list TranslationAttempt) (a : App) : App :=
  {| state := {| font_label := font_label (state a);
                 recognition_rounds := recognition_rounds (state a);
                 practice_words := practice_words (state a);
                 dictionary := dictionary (state a);
                 recognition_choices := recognition_choices (state a);
                 translation_attempts := l |};
     recognition_frame := recognition_frame a;
     translation_frame := translation_frame a;
     translator_frame := translator_frame a;
     raised := raised a |}.

Definition with_recognition (f : RecognitionFrame -> RecognitionFrame) (a : App) : App :=
  {| state := state a;
     recognition_frame := f (recognition_frame a);
     translation_frame := translation_frame a;
     translator_frame := translator_frame a;
     raised := raised a |}.

Definition with_translation (f : TranslationFrame -> TranslationFrame) (a : App) : App :=
  {| state := state a;
     recognition_frame := recognition_frame a;
     translation_frame := f (translation_frame a);
     translator_frame := translator_frame a;
     raised := raised a |}.

Definition with_translator (f : TranslatorFrame -> TranslatorFrame) (a : App) : App :=
  {| state := state a;
     recognition_frame := recognition_frame a;
     translation_frame := translation_frame a;
     translator_frame := f (translator_frame a);
     raised := raised a |}.

Definition set_raised (n : frame_name) (a : App) : App :=
  {| state := state a;
     recognition_frame := recognition_frame a;
     translation_frame := translation_frame a;
     translator_frame := translator_frame a;
     raised := n |}.

Definition set_selection_var (v : pystr) : App -> App :=
  with_recognition (fun f =>
    {| selection_var := v; current_round := current_round f;
       round_label := round_label f; buttons_frame := buttons_frame f;
       next_button := next_button f |}).

Definition set_current_round (r : nat) : App -> App :=
  with_recognition (fun f =>
    {| selection_var := selection_var f; current_round := Some r;
       round_label := round_label f; buttons_frame := buttons_frame f;
       next_button := next_button f |}).

Definition set_round_label (t : pystr) : App -> App :=
  with_recognition (fun f =>
    {| selection_var := selection_var f; current_round := current_round f;
       round_label := t; buttons_frame := buttons_frame f;
       next_button := next_button f |}).

Definition set_buttons_frame (b : list pystr) : App -> App :=
  with_recognition (fun f =>
    {| selection_var := selection_var f; current_round := current_round f;
       round_label := round_label f; buttons_frame := b;
       next_button := next_button f |}).

Definition set_next_button (w : widget_state) : App -> App :=
  with_recognition (fun f =>
    {| selection_var := selection_var f; current_round := current_round f;
       round_label := round_label f; buttons_frame := buttons_frame f;
       next_button := w |}).

Definition set_index (i : nat) : App -> App :=
  with_translation (fun f =>
    {| index := i; input_var := input_var f; prompt_label := prompt_label f |}).

Definition set_input_var (v : pystr) : App -> App :=
  with_translation (fun f =>
    {| index := index f; input_var := v; prompt_label := prompt_label f |}).

Definition set_prompt_label (t : pystr) : App -> App :=
  with_translation (fun f =>
    {| index := index f; input_var := input_var f; prompt_label := t |}).

Definition set_custom_var (v : pystr) : App -> App :=
  with_translator (fun f =>
    {| custom_var := v; french_var := french_var f;
       feedback_var := feedback_var f; summary_text := summary_text f |}).

Definition set_french_var (v : pystr) : App -> App :=
  with_translator (fun f =>
    {| custom_var := custom_var f; french_var := v;
       feedback_var := feedback_var f; summary_text := summary_text f |}).

Definition set_feedback_var (v : pystr) : App -> App :=
  with_translator (fun f =>
    {| custom_var := custom_var f; french_var := french_var f;
       feedback_var := v; summary_text := summary_text f |}).

Definition set_summary_text (t : pystr) : App -> App :=
  with_translator (fun f =>
    {| custom_var := custom_var f; french_var := french_var f;
       feedback_var := feedback_var f; summary_text := t |}).

(** ** Methods as state transformers that may raise

    A method runs on the application object and either returns or raises;
    what it wrote before raising stays written. *)

Inductive exception := IndexError | AttributeError.

Inductive outcome (A : Type) :=
| Returned (v : A) (a : App)
| Raised (e : exception) (a : App).
Arguments Returned {A} v a.
Arguments Raised {A} e a.

Definition M (A : Type) : Type := App -> outcome A.

Definition ret {A} (v : A) : M A := fun a => Returned v a.

Definition bind {A B} (m : M A) (k : A -> M B) : M B :=
  fun a => match m a with
           | Returned v a' => k v a'
           | Raised e a' => Raised e a'
           end.

Definition raise {A} (e : exception) : M A := fun a => Raised e a.
Definition get : M App := fun a => Returned a a.
Definition modify (f : App -> App) : M unit := fun a => Returned tt (f a).

Notation "x <- c1 ;; c2" := (bind c1 (fun x => c2))
  (at level 100, c1 at next level, right associativity).
Notation "c1 ;; c2" := (bind c1 (fun _ => c2))
  (at level 100, right associativity).

(** The application object an outcome leaves behind. *)
Definition after {A} (o : outcome A) : App :=
  match o with Returned _ a => a | Raised _ a => a end.

Definition returns {A} (o : outcome A) : bool :=
  match o with Returned _ _ => true | Raised _ _ => false end.

(** [l[i]] for [i >= 0]. *)
Definition getitem {A} (l : list A) (i : nat) : M A :=
  match l !! i with
  | Some x => ret x
  | None => raise IndexError
  end.

(** [self.current_round] *)
Definition read_current_round : M nat :=
  a <- get ;;
  match current_round (recognition_frame a) with
  | Some r => ret r
  | None => raise AttributeError
  end.

(** ** TranslatorFrame *)

Definition summary_lines (st : GameState) : list pystr :=
  [py "Reconnaissance :"]
  ++ map (fun choice =>
            py "• Série " ++ str_of_nat (round_index choice) ++ py ": "
            ++ selection choice)
         (recognition_choices st)
  ++ [[0x0A] ++ py "Saisie en glyphes :"]
  ++ map (fun attempt =>
            py "• " ++ french_word attempt ++ py " → "
            ++ str_or (typed_glyphs attempt) (py "<vide>"))
         (translation_attempts st).

Definition TranslatorFrame_populate_summary : M unit :=
  a <- get ;;
  modify (set_summary_text (join [0x0A] (summary_lines (state a)))).

Definition TranslatorFrame_on_show : M unit :=
  TranslatorFrame_populate_summary ;;
  modify (set_custom_var []) ;;
  modify (set_french_var []) ;;
  modify (set_feedback_var []).

(** [show_frame("translator")]: [on_show], then [tkraise]. *)
Definition show_frame_translator : M unit :=
  TranslatorFrame_on_show ;;
  modify (set_raised translator).

(** The three feedback texts of [translate_custom] and the three of
    [translate_french]. *)
Definition msg_empty_glyphs : pystr := py "Saisissez un mot en glyphes.".
Definition msg_no_match : pystr :=
  py "Aucune correspondance trouvée dans la liste fournie.".
Definition msg_empty_french : pystr := py "Saisissez un mot français.".
Definition msg_not_in_list : pystr :=
  py "Ce mot n'est pas dans la liste fournie.".
Definition msg_found (translation : pystr) : pystr := py "→ " ++ translation.

Definition TranslatorFrame_translate_custom : M unit :=
  a <- get ;;
  let glyphs := strip (custom_var (translator_frame a)) in
  if negb (truthy glyphs) then
    modify (set_feedback_var msg_empty_glyphs)
  else
    match dict_get glyphs (reverse_dictionary (state a)) with
    | Some french =>
        if truthy french then modify (set_feedback_var (msg_found french))
        else modify (set_feedback_var msg_no_match)
    | None => modify (set_feedback_var msg_no_match)
    end.

(** ** TranslationFrame *)

Definition TranslationFrame_load_prompt : M unit :=
  a <- get ;;
  let words := practice_words (state a) in
  let i := index (translation_frame a) in
  if bool_decide (length words <= i)%nat then
    show_frame_translator
  else
    word <- getitem words i ;;
    modify (set_prompt_label
              (py "Mot " ++ str_of_nat (i + 1) ++ py "/"
               ++ str_of_nat (length words) ++ py " : " ++ word)) ;;
    modify (set_input_var []).

Definition TranslationFrame_on_show : M unit :=
  modify (set_index 0) ;;
  modify (set_translation_attempts []) ;;
  TranslationFrame_load_prompt ;;
  modify (set_input_var []).

(** [show_frame("translation")] *)
Definition show_frame_translation : M unit :=
  TranslationFrame_on_show ;;
  modify (set_raised translation).

Definition TranslationFrame_submit : M unit :=
  a <- get ;;
  let words := practice_words (state a) in
  let i := index (translation_frame a) in
  if bool_decide (length words <= i)%nat then
    show_frame_translator
  else
    word <- getitem words i ;;
    modify (fun a =>
      set_translation_attempts
        (translation_attempts (state a)
         ++ [{| french_word := word;
                typed_glyphs := strip (input_var (translation_frame a)) |}])
        a) ;;
    modify (set_index (i + 1)) ;;
    TranslationFrame_load_prompt.

(** ** RecognitionFrame *)

(** The sentinel recorded when no symbol is recognised. *)
Definition Aucun : pystr := py "Aucun".

Definition RecognitionFrame_render_round : M unit :=
  modify (set_buttons_frame []) ;;
  a <- get ;;
  let total_rounds := length (recognition_rounds (state a)) in
  r <- read_current_round ;;
  modify (set_round_label
            (py "Série " ++ str_of_nat (r + 1) ++ py " / "
             ++ str_of_nat total_rounds)) ;;
  symbols <- getitem (recognition_rounds (state a)) r ;;
  modify (set_selection_var []) ;;
  modify (set_next_button DISABLED) ;;
  modify (set_buttons_frame symbols).

Definition RecognitionFrame_on_show : M unit :=
  modify (set_recognition_choices []) ;;
  modify (set_selection_var []) ;;
  modify (set_current_round 0) ;;
  RecognitionFrame_render_round.

(** [show_frame("recognition")] *)
Definition show_frame_recognition : M unit :=
  RecognitionFrame_on_show ;;
  modify (set_raised recognition).

Definition RecognitionFrame_record_choice (selection : pystr) : M unit :=
  modify (set_selection_var selection) ;;
  modify (set_next_button NORMAL).

Definition RecognitionFrame_next_round : M unit :=
  a <- get ;;
  let selection := str_or (selection_var (recognition_frame a)) Aucun in
  r <- read_current_round ;;
  modify (fun a =>
    set_recognition_choices
      (recognition_choices (state a)
       ++ [{| round_index := r + 1; selection := selection |}])
      a) ;;
  if bool_decide (length (recognition_rounds (state a)) <= r + 1)%nat then
    show_frame_translation
  else
    modify (set_current_round (r + 1)) ;;
    RecognitionFrame_render_round.

(** ** TranslationAlienApp *)

(** [show_frame(name)]: the start frame has no [on_show]. *)
Definition show_frame (name : frame_name) : M unit :=
  match name with
  | start => modify (set_raised start)
  | recognition => show_frame_recognition
  | translation => show_frame_translation
  | translator => show_frame_translator
  end.

(** [GameState(...)] as [load_state] builds it: both histories empty. *)
Definition new_state (lbl : pystr) (rounds : list (list pystr))
    (words : list pystr) (dict : pydict) : GameState :=
  {| font_label := lbl; recognition_rounds := rounds;
     practice_words := words; dictionary := dict;
     recognition_choices := []; translation_attempts := [] |}.

(** [TranslationAlienApp(state)]: the four frames are built, then
    [show_frame("start")]. *)
Definition TranslationAlienApp (st : GameState) : App :=
  {| state := st;
     recognition_frame :=
       {| selection_var := []; current_round := None; round_label := [];
          buttons_frame := []; next_button := DISABLED |};
     translation_frame :=
       {| index := 0; input_var := []; prompt_label := [] |};
     translator_frame :=
       {| custom_var := []; french_var := []; feedback_var := [];
          summary_text := [] |};
     raised := start |}.

Section WithLower.

(** Python's [str.lower], whose Unicode tables are not part of the
    program. *)
Variable str_lower : pystr -> pystr.

Definition TranslatorFrame_translate_french : M unit :=
  a <- get ;;
  let french := str_lower (strip (french_var (translator_frame a))) in
  if negb (truthy french) then
    modify (set_feedback_var msg_empty_french)
  else
    match dict_get french (dictionary (state a)) with
    | Some glyphs =>
        if truthy glyphs then modify (set_feedback_var (msg_found glyphs))
        else modify (set_feedback_var msg_not_in_list)
    | None => modify (set_feedback_var msg_not_in_list)
    end.

(** *** The user's actions

    What the user can do to the widgets: press a button, or edit the
    text of an entry.  The four frames are gridded in the same cell and
    stay there; [tkraise] puts one on top of the others, and no command
    tests which frame that is.  So [callback] runs a widget's command
    whatever frame is raised: the widgets of a covered frame stay mapped
    and can still be reached from the keyboard.  A disabled button does
    not run its command; an exception raised by a callback is reported
    and the main loop goes on. *)
Inductive event :=
| press_commencer
| press_symbol (i : nat)          (* the [i]-th radio button *)
| press_aucun
| press_suivant
| edit_input (text : pystr)
| press_valider
| edit_custom (text : pystr)
| edit_french (text : pystr)
| press_translate_custom
| press_translate_french.

#[global] Instance event_eq_dec : EqDecision event.
Proof. solve_decision. Defined.

Definition callback (e : event) : M unit :=
  match e with
  | press_commencer => show_frame recognition
  | press_symbol i =>
      a <- get ;;
      match buttons_frame (recognition_frame a) !! i with
      | Some s => RecognitionFrame_record_choice s
      | None => ret tt
      end
  | press_aucun => RecognitionFrame_record_choice Aucun
  | press_suivant =>
      a <- get ;;
      match next_button (recognition_frame a) with
      | NORMAL => RecognitionFrame_next_round
      | DISABLED => ret tt
      end
  | edit_input text => modify (set_input_var text)
  | press_valider => TranslationFrame_submit
  | edit_custom text => modify (set_custom_var text)
  | edit_french text => modify (set_french_var text)
  | press_translate_custom => TranslatorFrame_translate_custom
  | press_translate_french => TranslatorFrame_translate_french
  end.

(** [mainloop]: the actions are handled one after the other. *)
Definition mainloop (events : list event) (a : App) : App :=
  fold_left (fun a e => after (callback e a)) events a.

(** The frame a widget is built in. *)
Definition frame_of (e : event) : frame_name :=
  match e with
  | press_commencer => start
  | press_symbol _ | press_aucun | press_suivant => recognition
  | edit_input _ | press_valider => translation
  | edit_custom _ | edit_french _ | press_translate_custom
  | press_translate_french => translator
  end.

(** Every action of [events] is made on the frame that is raised when it
    is made: the user acts on what is shown. *)
Fixpoint shown_only (events : list event) (a : App) : bool :=
  match events with
  | [] => true
  | e :: events' =>
      bool_decide (raised a = frame_of e)
      && shown_only events' (after (callback e a))
  end.

End WithLower.

(** *** Case mappings for the closed examples

    [str.lower] and [str.upper] as Unicode defines them on the code
    points U+0000..U+00FF, and on the two capitals outside that range
    which upper-casing reaches.  Text made of these code points is
    mapped as Python maps it. *)

Definition latin_lower_char (c : N) : pystr :=
  if (0x41 <=? c) && (c <=? 0x5A) then [c + 0x20]
  else if (0xC0 <=? c) && (c <=? 0xDE) && negb (c =? 0xD7) then [c + 0x20]
  else if c =? 0x178 then [0xFF]
  else if c =? 0x39C then [0x3BC]
  else [c].

Definition latin_upper_char (c : N) : pystr :=
  if (0x61 <=? c) && (c <=? 0x7A) then [c - 0x20]
  else if c =? 0xB5 then [0x39C]
  else if c =? 0xDF then [0x53; 0x53]
  else if (0xE0 <=? c) && (c <=? 0xFE) && negb (c =? 0xF7) then [c - 0x20]
  else if c =? 0xFF then [0x178]
  else [c].

Definition latin_lower (s : pystr) : pystr := flat_map latin_lower_char s.
Definition latin_upper (s : pystr) : pystr := flat_map latin_upper_char s.

(** *** The two queries of the translator, as the user runs them

    The text is typed into the entry, the button is pressed, and the
    feedback label is read. *)

Definition feedback (a : App) : pystr := feedback_var (translator_frame a).

Definition translateToWord (text : pystr) (a : App) : outcome unit :=
  (modify (set_custom_var text) ;; TranslatorFrame_translate_custom) a.

Definition translateToGlyphs (str_lower : pystr -> pystr) (text : pystr)
    (a : App) : outcome unit :=
  (modify (set_french_var text) ;;
   TranslatorFrame_translate_french str_lower) a.

(** The fallback lexicon of [load_state]. *)
Definition default_dictionary : pydict :=
  [ (py "soleil", py "◉sol"); (py "lune", py "☾une");
    (py "étoile", py "✦toile"); (py "terre", py "⟁terre");
    (py "eau", py "≈eau"); (py "vent", py "〄vent"); (py "feu", py "🔥feu") ].

Definition default_rounds : list (list pystr) :=
  [ [py "Δ"; py "Λ"; py "Ω"; py "Ψ"; py "Φ"; py "Σ"];
    [py "Ϟ"; py "ϟ"; py "𐄣"; py "𐄢"; py "✶"; py "✧"];
    [py "₪"; py "⌬"; py "⎈"; py "⧫"; py "◈"; py "⬣"];
    [py "₪Δ"; py "ΛΩ"; py "ΨΣ"; py "ΦΘ"; py "ΘΨ"; py "ΩΛ"];
    [py "⟁"; py "⋇"; py "⎊"; py "⍾"; py "⟡"; py "⟠"];
    [py "⊶"; py "⊷"; py "⊸"; py "⋔"; py "⋇"; py "⋉"];
    [py "⌖"; py "⌖Δ"; py "Λ⌖"; py "Ω⌖"; py "Ψ⌖"; py "Φ⌖"] ].

Definition default_state : GameState :=
  new_state (py "HoloGlyph") default_rounds
    [py "soleil"; py "lune"; py "étoile"; py "terre"; py "eau"]
    default_dictionary.


(** The application as it starts on the fallback data. *)
Definition default_app : App := TranslationAlienApp default_state.


Definition empty_glyphs_app : App :=
  TranslationAlienApp (new_state [] [] [] [(py "rien", [])]).

Definition empty_word_app : App :=
  TranslationAlienApp (new_state [] [] [] [([], py "◉")]).

(** [TranslationAttempt(french_word=word, typed_glyphs=text.strip())] *)
Definition attempt_of (word text : pystr) : TranslationAttempt :=
  {| french_word := word; typed_glyphs := strip text |}.

(** The user's actions for one practice word: the text is typed into the
    entry, then "Valider" is pressed. *)
Definition type_and_submit (text : pystr) : list event :=
  [edit_input text; press_valider].

(** ** What the history of recognition choices must look like

    The choice at position [i] of the history (counted from 0) belongs to
    round [i + 1]: it carries that round index, and its selection is one
    of the symbols of that round or the sentinel. *)
Definition choice_ok (rounds : list (list pystr)) (i : nat)
    (c : RecognitionChoice) : Prop :=
  round_index c = S i
  /\ (1 <= round_index c)%nat
  /\ exists symbols,
       rounds !! i = Some symbols
       /\ (selection c ∈ symbols \/ selection c = Aucun).

Definition choices_ok (rounds : list (list pystr))
    (l : list RecognitionChoice) : Prop :=
  forall i c, l !! i = Some c -> choice_ok rounds i c.



(** What holds of the application between two actions of the user, as
    long as each action is made on the frame shown. *)
Definition session_inv (rounds : list (list pystr)) (a : App) : Prop :=
  recognition_rounds (state a) = rounds
  /\ choices_ok rounds (recognition_choices (state a))
  /\ match raised a with
     | start => recognition_choices (state a) = []
     | recognition =>
         exists r symbols,
           current_round (recognition_frame a) = Some r
           /\ length (recognition_choices (state a)) = r
           /\ rounds !! r = Some symbols
           /\ buttons_frame (recognition_frame a) = symbols
           /\ (selection_var (recognition_frame a) = []
               \/ selection_var (recognition_frame a) ∈ symbols
               \/ selection_var (recognition_frame a) = Aucun)
     | _ => True
     end.

(** The history after a step is the history before, or that with one
    choice more at its end. *)
Definition appended (before after_ : list RecognitionChoice) : Prop :=
  after_ = before \/ exists c, after_ = before ++ [c].

(** The user's actions for one round: a selection, then "Suivant". *)
Definition select_and_advance (e : event) : list event := [e; press_suivant].

(** What a selection passes to [record_choice] when the radio buttons
    are [symbols]; [None] when it reaches no button. *)
Definition selected (symbols : list pystr) (e : event) : option pystr :=
  match e with
  | press_symbol i => symbols !! i
  | press_aucun => Some Aucun
  | _ => None
  end.


(** The application on the fallback data once "Commencer" is pressed:
    the first round is shown and nothing is selected. *)
Definition recognition_app : App :=
  after (show_frame recognition default_app).

(** ** The order of the stages, selections, and the translation history *)

(** The frames in the order a session goes through them. *)
Definition stage_rank (n : frame_name) : nat :=
  match n with
  | start => 0
  | recognition => 1
  | translation => 2
  | translator => 3
  end.

(** The two ways of selecting in the recognition stage: a radio button,
    or "Aucun symbole reconnu". *)
Definition is_selection (e : event) : bool :=
  match e with
  | press_symbol _ | press_aucun => true
  | _ => false
  end.

(** The history a pass over the rounds [rounds_left] leaves, the first
    of them being round [r + 1], when the selections are [picks]. *)
Fixpoint pass_choices (r : nat) (rounds_left : list (list pystr))
    (picks : list event) : list RecognitionChoice :=
  match rounds_left, picks with
  | symbols :: rounds_left', e :: picks' =>
      {| round_index := r + 1;
         selection := str_or (default Aucun (selected symbols e)) Aucun |}
        :: pass_choices (S r) rounds_left' picks'
  | _, _ => []
  end.

(** The attempt at position [i] is for the practice word at position
    [i], and its text is trimmed. *)
Definition attempts_ok (words : list pystr)
    (l : list TranslationAttempt) : Prop :=
  forall i att,
    l !! i = Some att ->
    words !! i = Some (french_word att)
    /\ strip (typed_glyphs att) = typed_glyphs att.

Definition translation_inv (words : list pystr) (a : App) : Prop :=
  practice_words (state a) = words
  /\ attempts_ok words (translation_attempts (state a))
  /\ index (translation_frame a) = length (translation_attempts (state a)).

(** An entry with its word and its glyph-string exchanged. *)
Definition swap_entry (e : pystr * pystr) : pystr * pystr := (e.2, e.1).
(** ** Examples *)

Example py_eau : py "eau" = [0x65; 0x61; 0x75].
Proof. reflexivity. Qed.

Example py_etoile : py "étoile → 🔥" =
  [0xE9; 0x74; 0x6F; 0x69; 0x6C; 0x65; 0x20; 0x2192; 0x20; 0x1F525].
Proof. reflexivity. Qed.

Example strip_ex : strip (py "  le soleil 	") = py "le soleil".
Proof. reflexivity. Qed.

Example str_of_nat_ex : str_of_nat 12 = py "12" /\ str_of_nat 0 = py "0".
Proof. split; reflexivity. Qed.

Example latin_upper_ex :
  latin_upper (py "étoile") = py "ÉTOILE"
  /\ latin_lower (py "ÉTOILE") = py "étoile"
  /\ latin_upper (py "ß") = py "SS".
Proof. repeat split; reflexivity. Qed.

Example forward_soleil :
  feedback (after (translateToGlyphs latin_lower (py " Soleil ")
                     (TranslationAlienApp default_state)))
  = py "→ ◉sol".
Proof. vm_compute. reflexivity. Qed.

Example reverse_lune :
  feedback (after (translateToWord (py "☾une")
                     (TranslationAlienApp default_state)))
  = py "→ lune".
Proof. vm_compute. reflexivity. Qed.

Example full_recognition_pass :
  let a := mainloop latin_lower
             [press_commencer; press_symbol 2; press_suivant;
              press_aucun; press_suivant; press_suivant;
              press_symbol 0; press_symbol 1; press_suivant]
             (TranslationAlienApp default_state) in
  recognition_choices (state a)
  = [ {| round_index := 1; selection := py "Ω" |};
      {| round_index := 2; selection := py "Aucun" |};
      {| round_index := 3; selection := py "⌬" |} ]
  /\ current_round (recognition_frame a) = Some 3%nat.
Proof. vm_compute. split; reflexivity. Qed.

(** ** Strings *)




Lemma rstrip_nil : rstrip [] = [].
Proof. reflexivity. Qed.



Lemma truthy_false (s : pystr) : truthy s = false <-> s = [].
Proof. destruct s; simpl; split; congruence. Qed.

Lemma truthy_true (s : pystr) : truthy s = true <-> s <> [].
Proof. destruct s; simpl; split; congruence. Qed.

Lemma latin_lower_nil (s : pystr) : latin_lower s = [] <-> s = [].
Proof.
  split; [|by intros ->].
  destruct s as [|c s]; [done|]. unfold latin_lower. simpl.
  unfold latin_lower_char.
  repeat match goal with |- context [if ?b then _ else _] => destruct b end;
    discriminate.
Qed.

(** ** Dictionaries *)

Lemma dict_get_set_eq (k v : pystr) (d : pydict) :
  dict_get k (dict_set k v d) = Some v.
Proof.
  induction d as [|[k' v'] d IH]; simpl.
  - by rewrite bool_decide_eq_true_2.
  - destruct (bool_decide (k' = k)) eqn:E; simpl; rewrite E; done.
Qed.

Lemma dict_get_set_ne (k k0 v : pystr) (d : pydict) :
  k <> k0 -> dict_get k0 (dict_set k v d) = dict_get k0 d.
Proof.
  intros Hne. induction d as [|[k' v'] d IH]; simpl.
  - by rewrite bool_decide_eq_false_2.
  - destruct (bool_decide (k' = k)) eqn:E; simpl.
    + apply bool_decide_eq_true_1 in E as ->.
      by rewrite !bool_decide_eq_false_2.
    + by rewrite IH.
Qed.

Lemma dict_keys_set (k v : pystr) (d : pydict) :
  dict_keys (dict_set k v d)
  = if bool_decide (k ∈ dict_keys d) then dict_keys d else dict_keys d ++ [k].
Proof.
  unfold dict_keys. induction d as [|[k' v'] d IH]; csimpl; [done|].
  destruct (bool_decide (k' = k)) eqn:E; csimpl.
  - apply bool_decide_eq_true_1 in E as ->.
    rewrite bool_decide_eq_true_2; [done | by left].
  - apply bool_decide_eq_false_1 in E. rewrite IH.
    destruct (bool_decide (k ∈ d.*1)) eqn:E'.
    + apply bool_decide_eq_true_1 in E'.
      rewrite bool_decide_eq_true_2; [done | by right].
    + apply bool_decide_eq_false_1 in E'.
      rewrite bool_decide_eq_false_2; [done|].
      intros [?|?]%elem_of_cons; congruence.
Qed.

Lemma dict_set_NoDup (k v : pystr) (d : pydict) :
  NoDup (dict_keys d) -> NoDup (dict_keys (dict_set k v d)).
Proof.
  intros H. rewrite dict_keys_set. case_bool_decide; [done|].
  apply list.NoDup_app. split_and!; [done | | apply NoDup_singleton].
  intros x Hx ->%list_elem_of_singleton. done.
Qed.

Lemma dict_set_elem_of (k v k0 : pystr) (d : pydict) :
  k0 ∈ dict_keys (dict_set k v d) <-> k0 = k \/ k0 ∈ dict_keys d.
Proof.
  rewrite dict_keys_set. case_bool_decide.
  - split; [by right | intros [->|?]; done].
  - rewrite elem_of_app, list_elem_of_singleton. tauto.
Qed.

Lemma reverse_loop_NoDup (items : list (pystr * pystr)) (r : pydict) :
  NoDup (dict_keys r) -> NoDup (dict_keys (reverse_loop r items)).
Proof.
  revert r. induction items as [|[w g] items IH]; intros r H; simpl; [done|].
  apply IH. by apply dict_set_NoDup.
Qed.

Lemma reverse_loop_keys (items : list (pystr * pystr)) (r : pydict) (g : pystr) :
  g ∈ dict_keys (reverse_loop r items) <-> g ∈ dict_keys r \/ g ∈ items.*2.
Proof.
  revert r. induction items as [|[w g'] items IH]; intros r; simpl.
  - rewrite elem_of_nil. tauto.
  - rewrite IH, dict_set_elem_of, elem_of_cons. tauto.
Qed.

Lemma reverse_loop_get_other (items : list (pystr * pystr)) (r : pydict) (g : pystr) :
  g ∉ items.*2 -> dict_get g (reverse_loop r items) = dict_get g r.
Proof.
  revert r. induction items as [|[w g'] items IH]; intros r H; simpl; [done|].
  simpl in H. apply not_elem_of_cons in H as [Hne H].
  rewrite IH by done. by apply dict_get_set_ne.
Qed.

Lemma reverse_loop_app (d1 d2 : list (pystr * pystr)) (r : pydict) :
  reverse_loop r (d1 ++ d2) = reverse_loop (reverse_loop r d1) d2.
Proof. unfold reverse_loop. by rewrite fold_left_app. Qed.

Lemma filter_key_absent (g : pystr) (d : pydict) :
  g ∉ dict_keys d -> filter (fun e => e.1 = g) d = [].
Proof.
  unfold dict_keys. induction d as [|[k v] d IH]; csimpl; [done|].
  intros [Hne H]%not_elem_of_cons.
  rewrite filter_cons_False by (simpl; congruence). by apply IH.
Qed.

Lemma filter_key_once (g : pystr) (d : pydict) :
  NoDup (dict_keys d) -> g ∈ dict_keys d ->
  length (filter (fun e => e.1 = g) d) = 1%nat.
Proof.
  unfold dict_keys. induction d as [|[k v] d IH]; csimpl.
  - by intros _ ?%elem_of_nil.
  - intros [Hk Hd]%list.NoDup_cons Hin. destruct (decide (k = g)) as [->|Hne].
    + rewrite filter_cons_True by done. simpl.
      by rewrite filter_key_absent.
    + rewrite filter_cons_False by (simpl; congruence).
      apply IH; [done|]. apply elem_of_cons in Hin as [?|?]; congruence.
Qed.

(** C6: [build_reverse_dictionary] is one pass over the forward entries
    in their stored order, each step being the insertion
    [reverse[glyphs] = french] (the empty dictionary gives the empty
    reverse, and one more entry at the end is one more insertion).  The
    reverse has exactly one entry for each glyph-string that occurs as a
    value, and none for another; the entry of a glyph-string shared by
    several words holds the word that comes last in the forward order. *)
Theorem build_reverse_dictionary_last_wins (d : pydict) :
  build_reverse_dictionary [] = []
  /\ (forall w g, build_reverse_dictionary (d ++ [(w, g)])
                  = dict_set g w (build_reverse_dictionary d))
  /\ NoDup (dict_keys (build_reverse_dictionary d))
  /\ (forall g, g ∈ dict_keys (build_reverse_dictionary d) <-> g ∈ d.*2)
  /\ (forall g, g ∈ d.*2 ->
        length (filter (fun e => e.1 = g) (build_reverse_dictionary d)) = 1%nat)
  /\ (forall d1 w g d2, d = d1 ++ (w, g) :: d2 -> g ∉ d2.*2 ->
        dict_get g (build_reverse_dictionary d) = Some w).
Proof.
  assert (HND : NoDup (dict_keys (build_reverse_dictionary d)))
    by (apply reverse_loop_NoDup, NoDup_nil_2).
  assert (Hkeys : forall g,
             g ∈ dict_keys (build_reverse_dictionary d) <-> g ∈ d.*2).
  { intros g. unfold build_reverse_dictionary, dict_items.
    rewrite reverse_loop_keys. unfold dict_keys. csimpl.
    rewrite elem_of_nil. tauto. }
  split_and!; [done | | done | done | |].
  - intros w g. unfold build_reverse_dictionary, dict_items.
    by rewrite reverse_loop_app.
  - intros g Hg. apply filter_key_once; [done | by apply Hkeys].
  - intros d1 w g d2 -> Hg. unfold build_reverse_dictionary, dict_items.
    rewrite reverse_loop_app. simpl.
    rewrite reverse_loop_get_other by done. apply dict_get_set_eq.
Qed.

(** Two words with the same glyph-string: the later one is kept. *)
Lemma build_reverse_dictionary_last_wins_witness :
  dict_get (py "◉") (build_reverse_dictionary
                       [(py "soleil", py "◉"); (py "lune", py "☾");
                        (py "astre", py "◉")])
  = Some (py "astre")
  /\ length (filter (fun e => e.1 = py "◉")
               (build_reverse_dictionary
                  [(py "soleil", py "◉"); (py "lune", py "☾");
                   (py "astre", py "◉")])) = 1%nat.
Proof.
  destruct (build_reverse_dictionary_last_wins
              [(py "soleil", py "◉"); (py "lune", py "☾");
               (py "astre", py "◉")]) as (_ & _ & _ & _ & Hone & Hlast).
  split.
  - apply (Hlast [(py "soleil", py "◉"); (py "lune", py "☾")]
                 (py "astre") (py "◉") []); [reflexivity|].
    apply not_elem_of_nil.
  - apply Hone. vm_compute. apply list_elem_of_here.
Defined.

(** ** The translator's queries *)

Lemma msgs_distinct :
  msg_no_match <> msg_empty_glyphs /\ msg_not_in_list <> msg_empty_french.
Proof. split; vm_compute; discriminate. Qed.

Lemma translateToWord_eq (q : pystr) (a : App) :
  translateToWord q a =
  Returned tt
    (set_feedback_var
       (if negb (truthy (strip q)) then msg_empty_glyphs
        else match dict_get (strip q) (reverse_dictionary (state a)) with
             | Some french =>
                 if truthy french then msg_found french else msg_no_match
             | None => msg_no_match
             end)
       (set_custom_var q a)).
Proof.
  unfold translateToWord, TranslatorFrame_translate_custom, bind, modify, get.
  simpl. destruct (truthy (strip q)); simpl; [|done].
  destruct (dict_get _ _) as [french|]; [|done].
  by destruct (truthy french).
Qed.

Section Lower.

Variable str_lower : pystr -> pystr.

Lemma translateToGlyphs_eq (q : pystr) (a : App) :
  translateToGlyphs str_lower q a =
  Returned tt
    (set_feedback_var
       (if negb (truthy (str_lower (strip q))) then msg_empty_french
        else match dict_get (str_lower (strip q)) (dictionary (state a)) with
             | Some glyphs =>
                 if truthy glyphs then msg_found glyphs else msg_not_in_list
             | None => msg_not_in_list
             end)
       (set_french_var q a)).
Proof.
  unfold translateToGlyphs, TranslatorFrame_translate_french, bind, modify, get.
  simpl. destruct (truthy (str_lower (strip q))); simpl; [|done].
  destruct (dict_get _ _) as [glyphs|]; [|done].
  by destruct (truthy glyphs).
Qed.

(** Lower-casing gives the empty string for the empty string only. *)
Hypothesis str_lower_nil : forall s, str_lower s = [] <-> s = [].

(** C4: a query that is empty once trimmed gets the empty-input
    feedback from both translations; a query that is not, and whose
    normalised form has no entry, gets the miss feedback, which is a
    different text. *)
Theorem translate_empty_and_miss (q : pystr) (a : App) :
  (strip q = [] ->
     translateToGlyphs str_lower q a
     = Returned tt (set_feedback_var msg_empty_french (set_french_var q a))
     /\ translateToWord q a
        = Returned tt (set_feedback_var msg_empty_glyphs (set_custom_var q a)))
  /\ (strip q <> [] ->
      dict_get (str_lower (strip q)) (dictionary (state a)) = None ->
      translateToGlyphs str_lower q a
      = Returned tt (set_feedback_var msg_not_in_list (set_french_var q a)))
  /\ (strip q <> [] ->
      dict_get (strip q) (reverse_dictionary (state a)) = None ->
      translateToWord q a
      = Returned tt (set_feedback_var msg_no_match (set_custom_var q a)))
  /\ msg_not_in_list <> msg_empty_french
  /\ msg_no_match <> msg_empty_glyphs.
Proof.
  rewrite translateToGlyphs_eq, translateToWord_eq.
  split_and!; try apply msgs_distinct.
  - intros Hq. rewrite Hq.
    assert (str_lower [] = []) as -> by by apply str_lower_nil.
    done.
  - intros Hq Hmiss. rewrite Hmiss.
    assert (truthy (str_lower (strip q)) = true) as ->; [|done].
    apply truthy_true. by rewrite str_lower_nil.
  - intros Hq Hmiss. rewrite Hmiss.
    by apply truthy_true in Hq as ->.
Qed.

(** C10: a hit is decided by the truth value of what the lookup
    returns: an entry whose glyph-string is empty gets the miss
    feedback of [translate_french], and a reverse entry whose word is
    empty gets the miss feedback of [translate_custom]; neither is
    shown as a translation. *)
Theorem translate_empty_value_is_miss (q : pystr) (a : App) :
  (str_lower (strip q) <> [] ->
     dict_get (str_lower (strip q)) (dictionary (state a)) = Some [] ->
     translateToGlyphs str_lower q a
     = Returned tt (set_feedback_var msg_not_in_list (set_french_var q a)))
  /\ (strip q <> [] ->
      dict_get (strip q) (reverse_dictionary (state a)) = Some [] ->
      translateToWord q a
      = Returned tt (set_feedback_var msg_no_match (set_custom_var q a)))
  /\ msg_not_in_list <> msg_found []
  /\ msg_no_match <> msg_found [].
Proof.
  rewrite translateToGlyphs_eq, translateToWord_eq.
  split_and!; try (vm_compute; discriminate).
  - intros Hq Hget. rewrite Hget. by apply truthy_true in Hq as ->.
  - intros Hq Hget. rewrite Hget. by apply truthy_true in Hq as ->.
Qed.


End Lower.

Lemma translate_empty_and_miss_witness :
  feedback (after (translateToGlyphs latin_lower (py "   ") default_app))
  = msg_empty_french
  /\ feedback (after (translateToWord (py "   ") default_app))
     = msg_empty_glyphs
  /\ feedback (after (translateToGlyphs latin_lower (py "inconnu") default_app))
     = msg_not_in_list
  /\ feedback (after (translateToWord (py "inconnu") default_app))
     = msg_no_match.
Proof.
  destruct (translate_empty_and_miss latin_lower latin_lower_nil
              (py "   ") default_app) as (He & _).
  destruct (translate_empty_and_miss latin_lower latin_lower_nil
              (py "inconnu") default_app) as (_ & Hg & Hw & _).
  destruct He as [He1 He2]; [vm_compute; reflexivity|].
  rewrite He1, He2, Hg, Hw;
    try (vm_compute; reflexivity); try (vm_compute; discriminate).
  repeat split.
Defined.

Lemma translate_empty_value_is_miss_witness :
  feedback (after (translateToGlyphs latin_lower (py "Rien") empty_glyphs_app))
  = msg_not_in_list
  /\ feedback (after (translateToWord (py "◉") empty_word_app)) = msg_no_match.
Proof.
  destruct (translate_empty_value_is_miss latin_lower (py "Rien")
              empty_glyphs_app) as (Hg & _).
  destruct (translate_empty_value_is_miss latin_lower (py "◉")
              empty_word_app) as (_ & Hw & _).
  rewrite Hg, Hw;
    try (vm_compute; reflexivity); try (vm_compute; discriminate).
  split; reflexivity.
Defined.



(** ** The stages *)

(** Unfolds the methods down to the application object they return. *)
Ltac run_methods :=
  unfold show_frame, show_frame_recognition, show_frame_translation,
    show_frame_translator, RecognitionFrame_on_show,
    RecognitionFrame_next_round, RecognitionFrame_render_round,
    RecognitionFrame_record_choice, TranslationFrame_on_show,
    TranslationFrame_submit, TranslationFrame_load_prompt,
    TranslatorFrame_on_show, TranslatorFrame_populate_summary,
    read_current_round, getitem, bind, modify, get, ret, raise in *;
  simpl in *.

(** C9: activating the recognition stage empties the list of recognition
    choices, puts the round index back to the first round and clears the
    pending selection; the translation attempts, the other two frames and
    the session's source data are left as they were.  This holds as well
    when [render_round] then raises on an empty list of rounds. *)
Theorem recognition_on_show_resets (a : App) :
  let a' := after (show_frame recognition a) in
  recognition_choices (state a') = []
  /\ current_round (recognition_frame a') = Some 0%nat
  /\ selection_var (recognition_frame a') = []
  /\ translation_attempts (state a') = translation_attempts (state a)
  /\ translation_frame a' = translation_frame a
  /\ translator_frame a' = translator_frame a
  /\ recognition_rounds (state a') = recognition_rounds (state a)
  /\ practice_words (state a') = practice_words (state a)
  /\ dictionary (state a') = dictionary (state a).
Proof.
  destruct a as [[lbl rounds words dict choices attempts] rf tf trf top].
  run_methods. destruct rounds; simpl; repeat split.
Qed.

(** C3, on the code: with no round configured, [show_frame("recognition")]
    raises [IndexError] out of [render_round], and the start frame stays
    raised. *)
Theorem show_recognition_empty_rounds_raises (a : App) :
  recognition_rounds (state a) = [] ->
  exists a', show_frame recognition a = Raised IndexError a'
             /\ raised a' = raised a.
Proof.
  destruct a as [[lbl rounds words dict choices attempts] rf tf trf top].
  simpl. intros ->. run_methods. eauto.
Qed.

Lemma show_recognition_empty_rounds_raises_witness :
  exists a', show_frame recognition
               (TranslationAlienApp (new_state (py "HoloGlyph") [] [] []))
             = Raised IndexError a'
             /\ raised a' = start.
Proof.
  apply (show_recognition_empty_rounds_raises
           (TranslationAlienApp (new_state (py "HoloGlyph") [] [] []))).
  reflexivity.
Defined.

(** C8: when the word index is at or past the end of the practice
    words, [submit] records nothing and shows the translator: it
    returns, the attempts and the index are as before, and the translator
    frame is the one raised. *)
Theorem submit_past_end (a : App) :
  (length (practice_words (state a)) <= index (translation_frame a))%nat ->
  exists a', TranslationFrame_submit a = Returned tt a'
             /\ translation_attempts (state a') = translation_attempts (state a)
             /\ recognition_choices (state a') = recognition_choices (state a)
             /\ index (translation_frame a') = index (translation_frame a)
             /\ raised a' = translator.
Proof.
  destruct a as [[lbl rounds words dict choices attempts] rf [i inp pl] trf top].
  simpl. intros Hle. run_methods.
  rewrite bool_decide_eq_true_2 by done. simpl. eauto 10.
Qed.

Lemma submit_past_end_witness :
  exists a', TranslationFrame_submit
               (mainloop latin_lower
                  [edit_input (py "a"); press_valider]
                  (after (show_frame translation
                            (TranslationAlienApp
                               (new_state [] [] [py "eau"] [])))))
             = Returned tt a'
             /\ translation_attempts (state a')
                = [ {| french_word := py "eau"; typed_glyphs := py "a" |} ]
             /\ raised a' = translator.
Proof.
  destruct (submit_past_end
              (mainloop latin_lower
                 [edit_input (py "a"); press_valider]
                 (after (show_frame translation
                           (TranslationAlienApp
                              (new_state [] [] [py "eau"] []))))))
    as (a' & Hrun & Hatt & _ & _ & Htop).
  - vm_compute. lia.
  - exists a'. split; [exact Hrun|]. split; [|exact Htop].
    rewrite Hatt. vm_compute. reflexivity.
Defined.

(** *** The translation stage *)

Lemma show_translation_state (a : App) :
  let a' := after (show_frame translation a) in
  returns (show_frame translation a) = true
  /\ raised a' = translation
  /\ index (translation_frame a') = 0%nat
  /\ translation_attempts (state a') = []
  /\ practice_words (state a') = practice_words (state a)
  /\ recognition_choices (state a') = recognition_choices (state a)
  /\ recognition_rounds (state a') = recognition_rounds (state a).
Proof.
  destruct a as [[lbl rounds words dict choices attempts] rf tf trf top].
  run_methods. destruct words; simpl; repeat split.
Qed.

Section Submit.

Variable str_lower : pystr -> pystr.

Lemma mainloop_app (l1 l2 : list event) (a : App) :
  mainloop str_lower (l1 ++ l2) a
  = mainloop str_lower l2 (mainloop str_lower l1 a).
Proof. unfold mainloop. by rewrite fold_left_app. Qed.

Lemma submit_step (a : App) (t w : pystr) :
  raised a = translation ->
  practice_words (state a) !! index (translation_frame a) = Some w ->
  let a' := mainloop str_lower (type_and_submit t) a in
  translation_attempts (state a')
  = translation_attempts (state a) ++ [attempt_of w t]
  /\ index (translation_frame a') = S (index (translation_frame a))
  /\ practice_words (state a') = practice_words (state a)
  /\ recognition_choices (state a') = recognition_choices (state a)
  /\ (S (index (translation_frame a)) < length (practice_words (state a))
      -> raised a' = translation)%nat.
Proof.
  destruct a as [[lbl rounds words dict choices attempts] rf [i inp pl] trf top].
  simpl. intros -> Hw.
  pose proof (lookup_lt_Some _ _ _ Hw) as Hlt.
  unfold mainloop, type_and_submit, callback. run_methods.
  rewrite bool_decide_eq_false_2 by lia. rewrite Hw. simpl.
  replace (i + 1)%nat with (S i) by lia.
  case_bool_decide as Hend; simpl.
  - repeat split; lia.
  - destruct (lookup_lt_is_Some_2 words (S i)) as [w' ->]; [lia|].
    simpl. repeat split; done.
Qed.

Lemma submit_all (texts : list pystr) (a : App) :
  raised a = translation ->
  (index (translation_frame a) + length texts
   <= length (practice_words (state a)))%nat ->
  translation_attempts
    (state (mainloop str_lower (concat (type_and_submit <$> texts)) a))
  = translation_attempts (state a)
    ++ zip_with attempt_of
         (drop (index (translation_frame a)) (practice_words (state a)))
         texts.
Proof.
  revert a. induction texts as [|t texts IH]; intros a Htop Hlen.
  - simpl. by rewrite zip_with_nil_r, app_nil_r.
  - simpl in Hlen.
    destruct (lookup_lt_is_Some_2 (practice_words (state a))
                (index (translation_frame a))) as [w Hw]; [lia|].
    rewrite fmap_cons, concat_cons, mainloop_app.
    pose proof (submit_step a t w Htop Hw) as Hstep. cbv zeta in Hstep.
    set (a1 := mainloop str_lower (type_and_submit t) a) in *.
    clearbody a1.
    destruct Hstep as (Hatt & Hidx & Hwords & _ & Hraised).
    rewrite (drop_S _ _ _ Hw). cbn [zip_with].
    destruct texts as [|t' texts].
    + cbn. by rewrite Hatt, zip_with_nil_r.
    + rewrite IH.
      * rewrite Hatt, Hidx, Hwords, <- app_assoc. done.
      * apply Hraised. simpl in Hlen. lia.
      * rewrite Hidx, Hwords. simpl in *. lia.
Qed.

(** C7: from the activation of the translation stage, one text typed
    and submitted per practice word leaves as many attempts as there
    are words; the attempt at each position pairs the practice word at
    that position with the text typed for it, trimmed, the empty text
    giving an attempt like any other. *)
Theorem submits_record_attempts (a : App) (texts : list pystr) :
  length texts = length (practice_words (state a)) ->
  let a' := mainloop str_lower (concat (type_and_submit <$> texts))
              (after (show_frame translation a)) in
  translation_attempts (state a')
  = zip_with attempt_of (practice_words (state a)) texts
  /\ length (translation_attempts (state a'))
     = length (practice_words (state a))
  /\ (forall i w t,
        practice_words (state a) !! i = Some w -> texts !! i = Some t ->
        translation_attempts (state a') !! i
        = Some {| french_word := w; typed_glyphs := strip t |})
  /\ attempt_of [] [] = {| french_word := []; typed_glyphs := [] |}.
Proof.
  intros Hlen.
  destruct (show_translation_state a)
    as (_ & Htop & Hidx & Hatt & Hwords & _).
  assert (Heq : translation_attempts
                  (state (mainloop str_lower
                            (concat (type_and_submit <$> texts))
                            (after (show_frame translation a))))
                = zip_with attempt_of (practice_words (state a)) texts).
  { rewrite submit_all; [| done | rewrite Hidx, Hwords; simpl; lia].
    by rewrite Hatt, Hidx, Hwords. }
  cbv zeta. rewrite Heq. split_and!; [done | | | done].
  - rewrite length_zip_with. lia.
  - intros i w t Hw Ht. rewrite lookup_zip_with, Hw. simpl.
    by rewrite Ht.
Qed.

End Submit.

Lemma submits_record_attempts_witness :
  translation_attempts
    (state (mainloop latin_lower
              (concat (type_and_submit
                         <$> [py " ◉sol "; []; py "✦"; py "   "; py "≈eau"]))
              (after (show_frame translation default_app))))
  = [ {| french_word := py "soleil"; typed_glyphs := py "◉sol" |};
      {| french_word := py "lune"; typed_glyphs := [] |};
      {| french_word := py "étoile"; typed_glyphs := py "✦" |};
      {| french_word := py "terre"; typed_glyphs := [] |};
      {| french_word := py "eau"; typed_glyphs := py "≈eau" |} ].
Proof.
  destruct (submits_record_attempts latin_lower default_app
              [py " ◉sol "; []; py "✦"; py "   "; py "≈eau"])
    as (Heq & _); [reflexivity|].
  rewrite Heq. vm_compute. reflexivity.
Defined.

(** *** The recognition stage *)

Lemma choices_ok_nil (rounds : list (list pystr)) : choices_ok rounds [].
Proof. intros i c H. by rewrite lookup_nil in H. Qed.

Lemma choices_ok_snoc (rounds : list (list pystr))
    (l : list RecognitionChoice) (c : RecognitionChoice) :
  choices_ok rounds l -> choice_ok rounds (length l) c ->
  choices_ok rounds (l ++ [c]).
Proof.
  intros Hl Hc i c' Hi.
  apply lookup_snoc_Some in Hi as [[_ Hi]|[-> ->]]; [by apply Hl | done].
Qed.

Lemma str_or_selection (sv : pystr) (symbols : list pystr) :
  sv = [] \/ sv ∈ symbols \/ sv = Aucun ->
  str_or sv Aucun ∈ symbols \/ str_or sv Aucun = Aucun.
Proof.
  unfold str_or. destruct sv as [|c sv]; simpl; [by right|].
  intros [?|[?|?]]; [done | by left | by right].
Qed.

Lemma show_translator_state (a : App) :
  exists a', show_frame_translator a = Returned tt a'
             /\ raised a' = translator
             /\ state a' = state a.
Proof.
  destruct a as [st rf tf trf top]. run_methods. eauto.
Qed.

Lemma submit_state (a : App) :
  exists a', TranslationFrame_submit a = Returned tt a'
             /\ (raised a' = raised a \/ raised a' = translator)
             /\ recognition_choices (state a') = recognition_choices (state a)
             /\ recognition_rounds (state a') = recognition_rounds (state a).
Proof.
  destruct a as [[lbl rounds words dict choices attempts] rf [i inp pl] trf top].
  run_methods. case_bool_decide as Hend; simpl; [eauto 10|].
  destruct (lookup_lt_is_Some_2 words i) as [w ->]; [lia|]. simpl.
  case_bool_decide as Hend'; simpl; [eauto 10|].
  destruct (lookup_lt_is_Some_2 words (i + 1)) as [w' ->]; [lia|]. simpl.
  eauto 10.
Qed.

Lemma translate_custom_state (a : App) :
  exists m, TranslatorFrame_translate_custom a
            = Returned tt (set_feedback_var m a).
Proof.
  unfold TranslatorFrame_translate_custom, bind, get, modify.
  destruct (negb _); [eauto|].
  destruct (dict_get _ _) as [french|]; [|eauto].
  destruct (truthy french); eauto.
Qed.

Section Session.

Variable str_lower : pystr -> pystr.

Lemma translate_french_state (a : App) :
  exists m, TranslatorFrame_translate_french str_lower a
            = Returned tt (set_feedback_var m a).
Proof.
  unfold TranslatorFrame_translate_french, bind, get, modify.
  destruct (negb _); [eauto|].
  destruct (dict_get _ _) as [glyphs|]; [|eauto].
  destruct (truthy glyphs); eauto.
Qed.

Lemma inv_unchanged (rounds : list (list pystr)) (a : App) :
  session_inv rounds a ->
  session_inv rounds a
  /\ appended (recognition_choices (state a)) (recognition_choices (state a)).
Proof. intros H. split; [done | by left]. Qed.

Lemma callback_preserves_inv (rounds : list (list pystr)) (e : event) (a : App) :
  session_inv rounds a ->
  raised a = frame_of e ->
  session_inv rounds (after (callback str_lower e a))
  /\ appended (recognition_choices (state a))
              (recognition_choices (state (after (callback str_lower e a)))).
Proof.
  intros Hinv Htop.
  destruct e; unfold callback, bind, get, ret; cbn beta iota;
    cbn [frame_of] in Htop.
  - (* Commencer *)
    destruct Hinv as (Hr & Hok & Hst). rewrite Htop in Hst.
    destruct a as [[lbl rounds0 words dict choices attempts] rf tf trf top].
    simpl in *. subst. run_methods.
    destruct rounds as [|symbols rounds]; simpl.
    + split; [|by left]. split_and!; [done | apply choices_ok_nil | done].
    + split; [|by left]. split_and!; [done | apply choices_ok_nil |].
      exists 0%nat, symbols. split_and!; try done. by left.
  - (* a symbol *)
    destruct (buttons_frame (recognition_frame a) !! i) as [s|] eqn:Hs;
      [|by apply inv_unchanged].
    destruct Hinv as (Hr & Hok & Hst). rewrite Htop in Hst.
    destruct Hst as (r & symbols & Hcr & Hlen & Hround & Hbtn & Hsel).
    destruct a as [[lbl rounds0 words dict choices attempts]
                     [sv cr rl bf nb] tf trf top].
    simpl in *. subst. split; [|by left].
    split_and!; [done | done |]. exists (length choices); eexists.
    split_and!; try done. right; left. by eapply list_elem_of_lookup_2.
  - (* Aucun *)
    destruct Hinv as (Hr & Hok & Hst). rewrite Htop in Hst.
    destruct Hst as (r & symbols & Hcr & Hlen & Hround & Hbtn & Hsel).
    destruct a as [[lbl rounds0 words dict choices attempts]
                     [sv cr rl bf nb] tf trf top].
    simpl in *. subst. split; [|by left].
    split_and!; [done | done |]. exists (length choices); eexists.
    split_and!; try done. by right; right.
  - (* Suivant *)
    destruct (next_button (recognition_frame a)) eqn:Hnb;
      [|by apply inv_unchanged].
    destruct Hinv as (Hr & Hok & Hst). rewrite Htop in Hst.
    destruct Hst as (r & symbols & Hcr & Hlen & Hround & Hbtn & Hsel).
    pose proof (str_or_selection _ _ Hsel) as Hsel'.
    pose proof (lookup_lt_Some _ _ _ Hround) as Hlt.
    destruct a as [[lbl rounds0 words dict choices attempts]
                     [sv cr rl bf nb] tf trf top].
    simpl in *. subst.
    assert (Hok' : choices_ok rounds
                     (choices ++ [{| round_index := length choices + 1;
                                     selection := str_or sv Aucun |}])).
    { apply choices_ok_snoc; [done|]. split_and!; simpl; [lia | lia | eauto]. }
    unfold RecognitionFrame_next_round, read_current_round, bind, get, ret,
      modify. simpl.
    case_bool_decide as Hend; simpl.
    + match goal with
      | |- context [show_frame_translation ?x] =>
          destruct (show_translation_state x)
            as (Hret & Htop' & _ & _ & _ & Hch & Hrd);
          unfold show_frame in Hret, Htop', Hch, Hrd;
          destruct (show_frame_translation x) as [[] a'|]; [|done]
      end.
      simpl in *. split; [|right; eauto].
      split_and!; [done | by rewrite Hch | by rewrite Htop'].
    + destruct (lookup_lt_is_Some_2 rounds (length choices + 1))
        as [symbols' Hsym]; [lia|].
      run_methods. rewrite Hsym. simpl. split; [|right; eauto].
      split_and!; [done | done |].
      exists (length choices + 1)%nat, symbols'.
      simpl. split_and!; try done; [by rewrite length_app | by left].
  - (* typing in the translation entry *)
    destruct Hinv as (Hr & Hok & Hst). rewrite Htop in Hst.
    destruct a as [[lbl rounds0 words dict choices attempts] rf tf trf top].
    simpl in *. subst. split; [|by left]. done.
  - (* Valider *)
    destruct Hinv as (Hr & Hok & Hst).
    destruct (submit_state a) as (a' & -> & Htop' & Hch & Hrd).
    unfold session_inv. simpl. rewrite Hch, Hrd. split; [|by left].
    split_and!; [done | done |].
    destruct Htop' as [-> | ->]; by rewrite ?Htop.
  - destruct Hinv as (Hr & Hok & Hst). rewrite Htop in Hst.
    destruct a as [[lbl rounds0 words dict choices attempts] rf tf trf top].
    simpl in *. subst. split; [|by left]. done.
  - destruct Hinv as (Hr & Hok & Hst). rewrite Htop in Hst.
    destruct a as [[lbl rounds0 words dict choices attempts] rf tf trf top].
    simpl in *. subst. split; [|by left]. done.
  - (* translating glyphs *)
    destruct (translate_custom_state a) as [m ->].
    destruct a as [[lbl rounds0 words dict choices attempts] rf tf trf top].
    split; [done | by left].
  - (* translating a French word *)
    destruct (translate_french_state a) as [m ->].
    destruct a as [[lbl rounds0 words dict choices attempts] rf tf trf top].
    split; [done | by left].
Qed.

Lemma TranslationAlienApp_inv (lbl : pystr) (rounds : list (list pystr))
    (words : list pystr) (dict : pydict) :
  session_inv rounds (TranslationAlienApp (new_state lbl rounds words dict)).
Proof. split_and!; [done | apply choices_ok_nil | done]. Qed.

Lemma shown_only_app (l1 l2 : list event) (a : App) :
  shown_only str_lower (l1 ++ l2) a
  = shown_only str_lower l1 a
    && shown_only str_lower l2 (mainloop str_lower l1 a).
Proof.
  revert a. induction l1 as [|e l1 IH]; intros a; [done|].
  cbn [app shown_only]. rewrite IH, andb_assoc. done.
Qed.

Lemma mainloop_inv (rounds : list (list pystr)) (events : list event) (a : App) :
  session_inv rounds a ->
  shown_only str_lower events a = true ->
  session_inv rounds (mainloop str_lower events a).
Proof.
  revert a. induction events as [|e events IH]; intros a Ha Hshown; [done|].
  cbn [shown_only] in Hshown.
  apply andb_true_iff in Hshown as [Htop Hshown].
  apply bool_decide_eq_true_1 in Htop.
  apply IH; [|done]. by apply callback_preserves_inv.
Qed.

End Session.

Lemma next_round_choices (a : App) (r : nat) :
  current_round (recognition_frame a) = Some r ->
  recognition_choices (state (after (RecognitionFrame_next_round a)))
  = recognition_choices (state a)
    ++ [{| round_index := r + 1;
           selection := str_or (selection_var (recognition_frame a)) Aucun |}].
Proof.
  destruct a as [[lbl rounds words dict choices attempts]
                   [sv cr rl bf nb] tf trf top].
  simpl. intros ->.
  unfold RecognitionFrame_next_round, read_current_round, bind, get, ret,
    modify. simpl.
  case_bool_decide as Hend; simpl.
  - match goal with
    | |- context [show_frame_translation ?x] =>
        destruct (show_translation_state x) as (_ & _ & _ & _ & _ & Hch & _);
        unfold show_frame in Hch; by rewrite Hch
    end.
  - run_methods. by destruct (rounds !! (r + 1)%nat).
Qed.

Section Suivant.

Variable str_lower : pystr -> pystr.



End Suivant.



(** ** More on strings and dictionaries *)

Lemma lstrip_head (s : pystr) :
  lstrip s = [] \/ exists c t, lstrip s = c :: t /\ isspace c = false.
Proof.
  induction s as [|c s IH]; simpl; [by left|].
  destruct (isspace c) eqn:Hc; [done | right; eauto].
Qed.

Lemma lstrip_idem (s : pystr) : lstrip (lstrip s) = lstrip s.
Proof.
  destruct (lstrip_head s) as [-> | (c & t & -> & Hc)]; simpl; [done|].
  by rewrite Hc.
Qed.

Lemma lstrip_suffix (s : pystr) : exists ws, s = ws ++ lstrip s.
Proof.
  induction s as [|c s [ws IH]]; simpl; [by exists []|].
  destruct (isspace c); [|by exists []].
  exists (c :: ws). simpl. by rewrite <- IH.
Qed.

Lemma rstrip_prefix (s : pystr) : exists ws, s = rstrip s ++ ws.
Proof.
  destruct (lstrip_suffix (reverse s)) as [ws Hws].
  exists (reverse ws). unfold rstrip.
  by rewrite <- reverse_app, <- Hws, reverse_involutive.
Qed.

Lemma rstrip_idem (s : pystr) : rstrip (rstrip s) = rstrip s.
Proof. unfold rstrip. by rewrite reverse_involutive, lstrip_idem. Qed.

Lemma lstrip_rstrip_lstrip (s : pystr) :
  lstrip (rstrip (lstrip s)) = rstrip (lstrip s).
Proof.
  destruct (rstrip_prefix (lstrip s)) as [ws Hws].
  destruct (rstrip (lstrip s)) as [|c u] eqn:Hr; [done|].
  destruct (lstrip_head s) as [Hnil | (c' & t & Ht & Hc)].
  - rewrite Hnil in Hws. discriminate.
  - rewrite Ht in Hws. simpl in Hws. injection Hws as -> _.
    simpl. by rewrite Hc.
Qed.

(** Trimming a trimmed text changes nothing. *)
Lemma strip_idem (s : pystr) : strip (strip s) = strip s.
Proof.
  unfold strip. by rewrite lstrip_rstrip_lstrip, rstrip_idem.
Qed.

Lemma dict_get_Some_elem (k v : pystr) (d : pydict) :
  dict_get k d = Some v -> (k, v) ∈ d.
Proof.
  induction d as [|[k' v'] d IH]; simpl; [done|].
  case_bool_decide as Hk.
  - intros [= ->]. subst. by left.
  - intros H. right. by apply IH.
Qed.

Lemma dict_get_None (k : pystr) (d : pydict) :
  dict_get k d = None <-> k ∉ dict_keys d.
Proof.
  unfold dict_keys. induction d as [|[k' v'] d IH]; csimpl.
  - split; [intros _; apply not_elem_of_nil | done].
  - rewrite not_elem_of_cons. case_bool_decide as Hk.
    + split; [done | intros [? _]; congruence].
    + rewrite IH. split; [intros ?; split; [congruence | done] | by intros [_ ?]].
Qed.

Lemma dict_get_app_fresh (k v : pystr) (d1 d2 : pydict) :
  k ∉ dict_keys d1 -> dict_get k (d1 ++ (k, v) :: d2) = Some v.
Proof.
  unfold dict_keys. induction d1 as [|[k' v'] d1 IH]; csimpl.
  - intros _. by rewrite bool_decide_eq_true_2.
  - intros [Hne H]%not_elem_of_cons.
    rewrite bool_decide_eq_false_2 by congruence. by apply IH.
Qed.

Lemma reverse_loop_get_sound (items : list (pystr * pystr)) (r : pydict)
    (g w : pystr) :
  dict_get g (reverse_loop r items) = Some w ->
  dict_get g r = Some w \/ (w, g) ∈ items.
Proof.
  revert r. induction items as [|[w' g'] items IH]; intros r H; simpl in *;
    [by left|].
  apply IH in H as [H|H]; [|by right; right].
  destruct (decide (g' = g)) as [->|Hne].
  - rewrite dict_get_set_eq in H. injection H as ->. right. by left.
  - rewrite dict_get_set_ne in H by done. by left.
Qed.

Lemma dict_set_fresh (k v : pystr) (d : pydict) :
  k ∉ dict_keys d -> dict_set k v d = d ++ [(k, v)].
Proof.
  unfold dict_keys. induction d as [|[k' v'] d IH]; csimpl; [done|].
  intros [Hne H]%not_elem_of_cons.
  rewrite bool_decide_eq_false_2 by congruence. by rewrite IH.
Qed.

Lemma reverse_loop_injective (items : list (pystr * pystr)) (r : pydict) :
  NoDup (dict_keys r ++ items.*2) ->
  reverse_loop r items = r ++ (swap_entry <$> items).
Proof.
  revert r. induction items as [|[w g] items IH]; intros r H; csimpl.
  - by rewrite app_nil_r.
  - csimpl in H.
    assert (Hg : g ∉ dict_keys r).
    { apply list.NoDup_app in H as (_ & H & _). intros Hin.
      apply (H g Hin). by left. }
    unfold reverse_loop in *. simpl. rewrite dict_set_fresh by done.
    rewrite IH.
    + by rewrite <- app_assoc.
    + unfold dict_keys in *. rewrite fmap_app. csimpl.
      by rewrite <- app_assoc.
Qed.

(** X5: the reverse dictionary holds nothing the forward one does not:
    a glyph-string found in it comes with a word that has this
    glyph-string in the forward dictionary, and a glyph-string is missing
    from it exactly when no word has it. *)
Theorem reverse_lookup_sound_complete (d : pydict) (g : pystr) :
  (forall w, dict_get g (build_reverse_dictionary d) = Some w -> (w, g) ∈ d)
  /\ (dict_get g (build_reverse_dictionary d) = None <-> g ∉ d.*2).
Proof.
  split.
  - intros w H. apply reverse_loop_get_sound in H as [H|H]; done.
  - rewrite dict_get_None.
    unfold build_reverse_dictionary, dict_items.
    rewrite reverse_loop_keys. unfold dict_keys. csimpl.
    rewrite elem_of_nil. tauto.
Qed.

Lemma reverse_lookup_sound_complete_witness :
  (py "lune", py "☾une") ∈ default_dictionary
  /\ dict_get (py "☾") (build_reverse_dictionary default_dictionary) = None.
Proof.
  destruct (reverse_lookup_sound_complete default_dictionary (py "☾une"))
    as [Hsound _].
  destruct (reverse_lookup_sound_complete default_dictionary (py "☾"))
    as [_ Hmiss].
  split.
  - apply Hsound. vm_compute. reflexivity.
  - apply Hmiss. vm_compute. intros H.
    repeat (apply elem_of_cons in H as [H|H]; [discriminate|]).
    by apply elem_of_nil in H.
Defined.

(** X6: when no two words share a glyph-string, the reverse dictionary
    is the forward one with each entry turned around, in the same order;
    if moreover no word occurs twice, reversing the reverse gives the
    dictionary back. *)
Theorem reverse_of_injective (d : pydict) :
  NoDup d.*2 ->
  build_reverse_dictionary d = swap_entry <$> d
  /\ (NoDup d.*1 ->
      build_reverse_dictionary (build_reverse_dictionary d) = d).
Proof.
  intros Hg.
  assert (H1 : forall d' : pydict,
             NoDup d'.*2 -> build_reverse_dictionary d' = swap_entry <$> d').
  { intros d' Hd'. unfold build_reverse_dictionary, dict_items.
    by rewrite reverse_loop_injective. }
  split; [by apply H1|]. intros Hw.
  rewrite (H1 d Hg), H1.
  - rewrite <- list_fmap_compose.
    rewrite <- (list_fmap_id d) at 2. apply list_fmap_ext.
    by intros i [w g] _.
  - rewrite <- list_fmap_compose.
    by replace (snd ∘ swap_entry) with (@fst pystr pystr).
Qed.

Lemma reverse_of_injective_witness :
  build_reverse_dictionary default_dictionary
  = swap_entry <$> default_dictionary
  /\ build_reverse_dictionary (build_reverse_dictionary default_dictionary)
     = default_dictionary.
Proof.
  destruct (reverse_of_injective default_dictionary) as [Hswap Hback].
  - refine (bool_decide_unpack _ _). vm_compute. exact I.
  - split; [exact Hswap|]. apply Hback.
    refine (bool_decide_unpack _ _). vm_compute. exact I.
Defined.

(** ** More on the translator *)

Lemma build_reverse_get_last (d1 d2 : pydict) (w g : pystr) :
  g ∉ d2.*2 ->
  dict_get g (build_reverse_dictionary (d1 ++ (w, g) :: d2)) = Some w.
Proof.
  intros Hg. unfold build_reverse_dictionary, dict_items.
  rewrite reverse_loop_app. simpl.
  rewrite reverse_loop_get_other by done. apply dict_get_set_eq.
Qed.

Section Queries.

Variable str_lower : pystr -> pystr.

(** X7: a word and its glyph-string translate into each other.  For an
    entry whose word is in normal form (trimmed, lower case), whose
    glyph-string is trimmed, neither empty, the word not stored earlier
    and the glyph-string not given to a later word, translating the word
    shows the glyph-string, and translating that glyph-string next shows
    the word. *)
Theorem translate_round_trip (a : App) (d1 d2 : pydict) (w g : pystr) :
  dictionary (state a) = d1 ++ (w, g) :: d2 ->
  w ∉ d1.*1 -> g ∉ d2.*2 ->
  str_lower (strip w) = w -> strip g = g -> w <> [] -> g <> [] ->
  feedback (after (translateToGlyphs str_lower w a)) = msg_found g
  /\ feedback (after (translateToWord g
                        (after (translateToGlyphs str_lower w a))))
     = msg_found w.
Proof.
  intros Hd Hw Hg Hnw Hng Hw0 Hg0.
  rewrite translateToGlyphs_eq. simpl.
  rewrite translateToWord_eq. unfold feedback, reverse_dictionary. simpl.
  rewrite Hnw, Hng, Hd.
  apply truthy_true in Hw0 as Htw. apply truthy_true in Hg0 as Htg.
  rewrite Htw, Htg. simpl.
  rewrite dict_get_app_fresh by done.
  rewrite build_reverse_get_last by done.
  by rewrite Htw, Htg.
Qed.

(** X8: what a query can answer.  [translate_custom] shows the
    empty-input text (the trimmed query is empty), the miss text, or a
    word that is not empty and has the trimmed query as its glyph-string
    in the dictionary; as trimming a trimmed text changes nothing, an
    entry whose glyph-string starts or ends with whitespace is never
    the answer.  [translate_french] shows the empty-input text, the miss
    text, or the glyph-string, not empty, stored under the trimmed and
    lower-cased query. *)
Theorem translate_outcomes (q : pystr) (a : App) :
  ((strip q = []
    /\ feedback (after (translateToWord q a)) = msg_empty_glyphs)
   \/ (strip q <> []
       /\ feedback (after (translateToWord q a)) = msg_no_match)
   \/ (exists w,
         feedback (after (translateToWord q a)) = msg_found w
         /\ w <> [] /\ strip q <> []
         /\ (w, strip q) ∈ dictionary (state a)
         /\ strip (strip q) = strip q))
  /\ ((str_lower (strip q) = []
       /\ feedback (after (translateToGlyphs str_lower q a))
          = msg_empty_french)
      \/ (str_lower (strip q) <> []
          /\ feedback (after (translateToGlyphs str_lower q a))
             = msg_not_in_list)
      \/ (exists g,
            feedback (after (translateToGlyphs str_lower q a)) = msg_found g
            /\ g <> [] /\ str_lower (strip q) <> []
            /\ (str_lower (strip q), g) ∈ dictionary (state a))).
Proof.
  rewrite translateToGlyphs_eq, translateToWord_eq. unfold feedback. simpl.
  split.
  - destruct (truthy (strip q)) eqn:Hq; simpl.
    + apply truthy_true in Hq.
      destruct (dict_get _ _) as [w|] eqn:Hget; [|by right; left].
      destruct (truthy w) eqn:Hw; [|by right; left].
      right; right. exists w. apply truthy_true in Hw.
      split_and!; [done | done | done | | apply strip_idem].
      apply reverse_loop_get_sound in Hget as [Hget|Hget]; done.
    + apply truthy_false in Hq. by left.
  - destruct (truthy (str_lower (strip q))) eqn:Hq; simpl.
    + apply truthy_true in Hq.
      destruct (dict_get _ _) as [g|] eqn:Hget; [|by right; left].
      destruct (truthy g) eqn:Hg; [|by right; left].
      right; right. exists g. apply truthy_true in Hg.
      split_and!; [done | done | done |]. by apply dict_get_Some_elem.
    + apply truthy_false in Hq. by left.
Qed.

(** X14: a query changes the entry it was typed in and the feedback
    text, nothing else: the game state with both histories, the two other
    frames, the summary and the raised frame are as before; and asking
    the same again gives the same state. *)
Theorem translator_queries_frame (q : pystr) (a : App) :
  (let a' := after (translateToWord q a) in
   state a' = state a
   /\ recognition_frame a' = recognition_frame a
   /\ translation_frame a' = translation_frame a
   /\ raised a' = raised a
   /\ summary_text (translator_frame a') = summary_text (translator_frame a)
   /\ french_var (translator_frame a') = french_var (translator_frame a)
   /\ translateToWord q a' = Returned tt a')
  /\ (let a' := after (translateToGlyphs str_lower q a) in
      state a' = state a
      /\ recognition_frame a' = recognition_frame a
      /\ translation_frame a' = translation_frame a
      /\ raised a' = raised a
      /\ summary_text (translator_frame a') = summary_text (translator_frame a)
      /\ custom_var (translator_frame a') = custom_var (translator_frame a)
      /\ translateToGlyphs str_lower q a' = Returned tt a').
Proof.
  split; cbv zeta.
  - rewrite (translateToWord_eq q a). simpl.
    split_and!; try done. by rewrite translateToWord_eq.
  - rewrite (translateToGlyphs_eq str_lower q a). simpl.
    split_and!; try done. by rewrite translateToGlyphs_eq.
Qed.

End Queries.

Lemma translate_round_trip_witness :
  feedback (after (translateToGlyphs latin_lower (py "étoile") default_app))
  = py "→ ✦toile"
  /\ feedback (after (translateToWord (py "✦toile")
                        (after (translateToGlyphs latin_lower (py "étoile")
                                  default_app))))
     = py "→ étoile".
Proof.
  apply (translate_round_trip latin_lower default_app
           [(py "soleil", py "◉sol"); (py "lune", py "☾une")]
           [(py "terre", py "⟁terre"); (py "eau", py "≈eau");
            (py "vent", py "〄vent"); (py "feu", py "🔥feu")]
           (py "étoile") (py "✦toile")).
  - reflexivity.
  - vm_compute. intros H.
    repeat (apply elem_of_cons in H as [H|H]; [discriminate|]).
    by apply elem_of_nil in H.
  - vm_compute. intros H.
    repeat (apply elem_of_cons in H as [H|H]; [discriminate|]).
    by apply elem_of_nil in H.
  - vm_compute. reflexivity.
  - vm_compute. reflexivity.
  - vm_compute. discriminate.
  - vm_compute. discriminate.
Defined.

(** ** More on the stages *)

(** X13: [current_round] exists only once [on_show] has run: before
    that, [next_round] raises [AttributeError] and changes nothing, and
    so does [render_round], which has only emptied the button frame. *)
Theorem next_round_before_show (a : App) :
  current_round (recognition_frame a) = None ->
  RecognitionFrame_next_round a = Raised AttributeError a
  /\ RecognitionFrame_render_round a
     = Raised AttributeError (set_buttons_frame [] a).
Proof.
  destruct a as [st [sv cr rl bf nb] tf trf top]. simpl. intros ->.
  run_methods. done.
Qed.

Lemma next_round_before_show_witness :
  RecognitionFrame_next_round default_app = Raised AttributeError default_app.
Proof.
  apply (next_round_before_show default_app). reflexivity.
Defined.

(** X10: activating the translation stage always returns, with the
    translation frame raised, the word index at 0, the entry empty and
    the list of attempts empty; the recognition choices, the recognition
    frame and the session's source data are as before.  When there is a
    first practice word the prompt shows it as word 1 of the number of
    words, and the translator frame is untouched. *)
Theorem translation_on_show_resets (a : App) :
  let a' := after (show_frame translation a) in
  returns (show_frame translation a) = true
  /\ raised a' = translation
  /\ index (translation_frame a') = 0%nat
  /\ input_var (translation_frame a') = []
  /\ translation_attempts (state a') = []
  /\ recognition_choices (state a') = recognition_choices (state a)
  /\ recognition_frame a' = recognition_frame a
  /\ recognition_rounds (state a') = recognition_rounds (state a)
  /\ practice_words (state a') = practice_words (state a)
  /\ dictionary (state a') = dictionary (state a)
  /\ (forall w,
        practice_words (state a) !! 0%nat = Some w ->
        prompt_label (translation_frame a')
        = py "Mot " ++ str_of_nat 1 ++ py "/"
          ++ str_of_nat (length (practice_words (state a))) ++ py " : " ++ w
        /\ translator_frame a' = translator_frame a).
Proof.
  destruct a as [[lbl rounds words dict choices attempts] rf tf trf top].
  run_methods. destruct words as [|w0 words]; simpl;
    split_and!; try done; by intros w [= <-].
Qed.

Section Stages.

Variable str_lower : pystr -> pystr.

(** X9: with no practice word, activating the translation stage runs
    the translator's [on_show] (the summary is written) and yet leaves
    the translation frame raised, the outer [tkraise] coming last;
    "Valider" then returns, raises the translator and records nothing. *)
Theorem translation_stage_without_words (a : App) :
  practice_words (state a) = [] ->
  let a1 := after (show_frame translation a) in
  let a2 := after (callback str_lower press_valider a1) in
  raised a1 = translation
  /\ summary_text (translator_frame a1)
     = join [0x0A] (summary_lines (state a1))
  /\ returns (callback str_lower press_valider a1) = true
  /\ raised a2 = translator
  /\ translation_attempts (state a2) = []
  /\ index (translation_frame a2) = 0%nat.
Proof.
  destruct a as [[lbl rounds words dict choices attempts] rf tf trf top].
  simpl. intros ->. unfold callback. run_methods. done.
Qed.

Lemma next_round_raised (a : App) :
  raised (after (RecognitionFrame_next_round a)) = raised a
  \/ raised (after (RecognitionFrame_next_round a)) = translation.
Proof.
  destruct a as [[lbl rounds words dict choices attempts]
                   [sv cr rl bf nb] tf trf top].
  unfold RecognitionFrame_next_round, read_current_round, bind, get, ret,
    modify, raise. simpl.
  destruct cr as [r|]; simpl; [|by left].
  case_bool_decide as Hend; simpl.
  - right.
    match goal with
    | |- context [show_frame_translation ?x] =>
        destruct (show_translation_state x) as (_ & Htop & _);
        unfold show_frame in Htop; exact Htop
    end.
  - left. run_methods. by destruct (rounds !! (r + 1)%nat).
Qed.

Lemma callback_raised (e : event) (a : App) :
  raised (after (callback str_lower e a)) = raised a
  \/ (e = press_commencer
      /\ raised (after (callback str_lower e a)) = recognition)
  \/ (e = press_suivant
      /\ raised (after (callback str_lower e a)) = translation)
  \/ (e = press_valider
      /\ raised (after (callback str_lower e a)) = translator).
Proof.
  destruct e; unfold callback, bind, get, ret; cbn beta iota.
  - destruct a as [[lbl rounds words dict choices attempts] rf tf trf top].
    run_methods. destruct rounds; simpl; [by left | by right; left].
  - left. by destruct (buttons_frame (recognition_frame a) !! i); destruct a.
  - left. by destruct a.
  - destruct (next_button (recognition_frame a)); [|by left].
    destruct (next_round_raised a) as [Hr | Hr]; rewrite Hr;
      [by left | by right; right; left].
  - left. by destruct a.
  - destruct (submit_state a) as (a' & -> & Hr & _). simpl.
    destruct Hr as [-> | ->]; [by left | by right; right; right].
  - left. by destruct a.
  - left. by destruct a.
  - left. destruct (translate_custom_state a) as [m ->]. by destruct a.
  - left. destruct (translate_french_state str_lower a) as [m ->].
    by destruct a.
Qed.

(** X3: which commands change the frame shown.  Whatever the state, a
    command leaves the raised frame as it is, except that "Commencer"
    can raise the recognition frame, "Suivant" the translation frame and
    "Valider" the translator frame.  So, as long as each action is made
    on the frame shown, the session never goes back in the order start,
    recognition, translation, translator. *)
Theorem stage_never_goes_back (events : list event) (a : App) :
  (forall e,
     raised (after (callback str_lower e a)) = raised a
     \/ (e = press_commencer
         /\ raised (after (callback str_lower e a)) = recognition)
     \/ (e = press_suivant
         /\ raised (after (callback str_lower e a)) = translation)
     \/ (e = press_valider
         /\ raised (after (callback str_lower e a)) = translator))
  /\ (shown_only str_lower events a = true ->
      (stage_rank (raised a)
       <= stage_rank (raised (mainloop str_lower events a)))%nat).
Proof.
  split; [intros e; apply callback_raised|].
  revert a. induction events as [|e events IH]; intros a Hshown; [simpl; lia|].
  cbn [shown_only] in Hshown.
  apply andb_true_iff in Hshown as [Htop Hshown].
  apply bool_decide_eq_true_1 in Htop.
  etrans; [|apply (IH _ Hshown)].
  destruct (callback_raised e a)
    as [-> | [[-> ->] | [[-> ->] | [-> ->]]]];
    rewrite ?Htop; simpl; lia.
Qed.

End Stages.

Lemma translation_stage_without_words_witness :
  raised (after (show_frame translation
                   (TranslationAlienApp (new_state [] default_rounds [] []))))
  = translation
  /\ raised (after (callback latin_lower press_valider
                      (after (show_frame translation
                                (TranslationAlienApp
                                   (new_state [] default_rounds [] []))))))
     = translator.
Proof.
  destruct (translation_stage_without_words latin_lower
              (TranslationAlienApp (new_state [] default_rounds [] [])))
    as (H1 & _ & _ & H2 & _); [reflexivity|].
  split; [exact H1 | exact H2].
Defined.

Lemma translation_on_show_resets_witness :
  prompt_label (translation_frame (after (show_frame translation default_app)))
  = py "Mot 1/5 : soleil".
Proof.
  destruct (translation_on_show_resets default_app)
    as (_ & _ & _ & _ & _ & _ & _ & _ & _ & _ & Hprompt).
  destruct (Hprompt (py "soleil") eq_refl) as [Hp _].
  rewrite Hp. vm_compute. reflexivity.
Defined.

Lemma stage_never_goes_back_witness :
  (stage_rank (raised default_app)
   <= stage_rank
        (raised (mainloop latin_lower
                   [press_commencer; press_aucun; press_suivant]
                   default_app)))%nat.
Proof.
  destruct (stage_never_goes_back latin_lower
              [press_commencer; press_aucun; press_suivant] default_app)
    as [_ Hrank].
  apply Hrank. vm_compute. reflexivity.
Defined.

(** ** A round, and a pass over the rounds *)

Lemma next_round_more (a : App) (r : nat) :
  current_round (recognition_frame a) = Some r ->
  (r + 1 < length (recognition_rounds (state a)))%nat ->
  exists a' symbols',
    RecognitionFrame_next_round a = Returned tt a'
    /\ raised a' = raised a
    /\ current_round (recognition_frame a') = Some (r + 1)%nat
    /\ next_button (recognition_frame a') = DISABLED
    /\ selection_var (recognition_frame a') = []
    /\ recognition_rounds (state a) !! (r + 1)%nat = Some symbols'
    /\ buttons_frame (recognition_frame a') = symbols'
    /\ recognition_rounds (state a') = recognition_rounds (state a)
    /\ practice_words (state a') = practice_words (state a)
    /\ translation_attempts (state a') = translation_attempts (state a)
    /\ translation_frame a' = translation_frame a.
Proof.
  destruct a as [[lbl rounds words dict choices attempts]
                   [sv cr rl bf nb] tf trf top].
  simpl. intros -> Hlt.
  destruct (lookup_lt_is_Some_2 rounds (r + 1)) as [symbols' Hsym]; [lia|].
  unfold RecognitionFrame_next_round, read_current_round, bind, get, ret,
    modify. simpl.
  rewrite bool_decide_eq_false_2 by lia.
  run_methods. rewrite Hsym. simpl.
  eexists _, symbols'. split_and!; done.
Qed.

Lemma next_round_last (a : App) (r : nat) :
  current_round (recognition_frame a) = Some r ->
  (length (recognition_rounds (state a)) <= r + 1)%nat ->
  exists a',
    RecognitionFrame_next_round a = Returned tt a'
    /\ raised a' = translation
    /\ translation_attempts (state a') = []
    /\ index (translation_frame a') = 0%nat
    /\ recognition_rounds (state a') = recognition_rounds (state a)
    /\ practice_words (state a') = practice_words (state a).
Proof.
  destruct a as [[lbl rounds words dict choices attempts]
                   [sv cr rl bf nb] tf trf top].
  simpl. intros -> Hle.
  unfold RecognitionFrame_next_round, read_current_round, bind, get, ret,
    modify. simpl.
  rewrite bool_decide_eq_true_2 by lia.
  match goal with
  | |- context [show_frame_translation ?x] =>
      destruct (show_translation_state x)
        as (Hret & Htop & Hidx & Hatt & Hwords & _ & Hrd);
      unfold show_frame in Hret, Htop, Hidx, Hatt, Hwords, Hrd;
      destruct (show_frame_translation x) as [[] a'|]; [|done]
  end.
  simpl in *. exists a'. split_and!; done.
Qed.

Section Rounds.

Variable str_lower : pystr -> pystr.

Lemma suivant_enabled (a : App) :
  raised a = recognition ->
  next_button (recognition_frame a) = NORMAL ->
  callback str_lower press_suivant a = RecognitionFrame_next_round a.
Proof.
  intros Htop Hnb. unfold callback, bind, get, ret. cbn beta iota.
  by rewrite Hnb.
Qed.

Lemma selection_step (e : event) (a : App) :
  raised a = recognition -> is_selection e = true ->
  state (after (callback str_lower e a)) = state a
  /\ raised (after (callback str_lower e a)) = recognition
  /\ current_round (recognition_frame (after (callback str_lower e a)))
     = current_round (recognition_frame a)
  /\ buttons_frame (recognition_frame (after (callback str_lower e a)))
     = buttons_frame (recognition_frame a)
  /\ (forall s,
        selected (buttons_frame (recognition_frame a)) e = Some s ->
        selection_var (recognition_frame (after (callback str_lower e a))) = s
        /\ next_button (recognition_frame (after (callback str_lower e a)))
           = NORMAL).
Proof.
  intros Htop He. destruct e; try done;
    unfold callback, bind, get, ret; cbn beta iota.
  - simpl. destruct (buttons_frame (recognition_frame a) !! i) as [s|] eqn:Hs.
    + destruct a as [st [sv cr rl bf nb] tf trf top]. simpl in *.
      split_and!; try done. by intros s' [= <-].
    + simpl. split_and!; done.
  - destruct a as [st [sv cr rl bf nb] tf trf top]. simpl in *.
    split_and!; try done. by intros s' [= <-].
Qed.

Lemma selections_keep (sels : list event) (a : App) :
  raised a = recognition ->
  Forall (fun e => is_selection e = true) sels ->
  state (mainloop str_lower sels a) = state a
  /\ raised (mainloop str_lower sels a) = recognition
  /\ current_round (recognition_frame (mainloop str_lower sels a))
     = current_round (recognition_frame a)
  /\ buttons_frame (recognition_frame (mainloop str_lower sels a))
     = buttons_frame (recognition_frame a).
Proof.
  intros Htop Hsels. revert a Htop.
  induction Hsels as [|e sels He _ IH]; intros a Htop; [done|].
  destruct (selection_step e a Htop He) as (Hst & Htop' & Hcr & Hbf & _).
  change (mainloop str_lower (e :: sels) a)
    with (mainloop str_lower sels (after (callback str_lower e a))).
  destruct (IH _ Htop') as (Hst2 & Htop2 & Hcr2 & Hbf2).
  by rewrite Hst2, Htop2, Hcr2, Hbf2, Hst, Hcr, Hbf.
Qed.

Lemma select_advance_step (sels : list event) (e : event) (a : App)
    (r : nat) (s : pystr) :
  raised a = recognition ->
  current_round (recognition_frame a) = Some r ->
  Forall (fun e => is_selection e = true) sels ->
  selected (buttons_frame (recognition_frame a)) e = Some s ->
  let a' := mainloop str_lower (sels ++ select_and_advance e) a in
  recognition_choices (state a')
  = recognition_choices (state a)
    ++ [{| round_index := r + 1; selection := str_or s Aucun |}]
  /\ recognition_rounds (state a') = recognition_rounds (state a)
  /\ ((r + 1 < length (recognition_rounds (state a)))%nat ->
      raised a' = recognition
      /\ current_round (recognition_frame a') = Some (r + 1)%nat
      /\ next_button (recognition_frame a') = DISABLED
      /\ selection_var (recognition_frame a') = []
      /\ recognition_rounds (state a) !! (r + 1)%nat
         = Some (buttons_frame (recognition_frame a')))
  /\ ((length (recognition_rounds (state a)) <= r + 1)%nat ->
      raised a' = translation
      /\ translation_attempts (state a') = []
      /\ index (translation_frame a') = 0%nat).
Proof.
  intros Htop Hcr Hsels Hs. cbv zeta.
  rewrite (mainloop_app str_lower).
  destruct (selections_keep sels a Htop Hsels) as (Hst1 & Htop1 & Hcr1 & Hbf1).
  set (a1 := mainloop str_lower sels a) in *. clearbody a1.
  assert (Hsel : is_selection e = true) by (by destruct e).
  destruct (selection_step e a1 Htop1 Hsel) as (Hst2 & Htop2 & Hcr2 & Hbf2 & Hsv).
  rewrite Hbf1 in Hsv. destruct (Hsv s Hs) as [Hsv2 Hnb2].
  unfold select_and_advance.
  change (mainloop str_lower [e; press_suivant] a1)
    with (after (callback str_lower press_suivant
                   (after (callback str_lower e a1)))).
  set (a2 := after (callback str_lower e a1)) in *. clearbody a2.
  rewrite (suivant_enabled a2 Htop2 Hnb2).
  assert (Hcr' : current_round (recognition_frame a2) = Some r)
    by (by rewrite Hcr2, Hcr1).
  assert (Hst' : state a2 = state a) by (by rewrite Hst2).
  split_and!.
  - rewrite (next_round_choices a2 r Hcr'). by rewrite Hsv2, Hst'.
  - destruct (decide (r + 1 < length (recognition_rounds (state a2)))%nat)
      as [Hlt|Hge].
    + destruct (next_round_more a2 r Hcr' Hlt)
        as (a' & symbols' & -> & _ & _ & _ & _ & _ & _ & Hrd & _).
      simpl. by rewrite Hrd, Hst'.
    + destruct (next_round_last a2 r Hcr') as (a' & -> & _ & _ & _ & Hrd & _);
        [lia|]. simpl. by rewrite Hrd, Hst'.
  - intros Hlt. rewrite <- Hst' in Hlt |- *.
    destruct (next_round_more a2 r Hcr' Hlt)
      as (a' & symbols' & -> & Htop' & Hcr3 & Hnb3 & Hsv3 & Hsym & Hbf3 & _).
    simpl. split_and!; try done; [by rewrite Htop' | by rewrite Hbf3].
  - intros Hle. rewrite <- Hst' in Hle.
    destruct (next_round_last a2 r Hcr' Hle)
      as (a' & -> & Htop' & Hatt & Hidx & _).
    simpl. done.
Qed.

(** X1: one round.  In the recognition stage, any number of selections
    followed by a selection that reaches a button or "Aucun", then
    "Suivant", adds exactly one choice to the history: the round index is
    the current round plus one and the selection is what was selected
    last (the sentinel if that is the empty text).  If rounds are left,
    the next one is shown, with the button disabled and nothing
    selected; if not, the translation stage starts afresh. *)
Theorem select_then_advance (sels : list event) (e : event) (a : App)
    (r : nat) (s : pystr) :
  raised a = recognition ->
  current_round (recognition_frame a) = Some r ->
  Forall (fun e => is_selection e = true) sels ->
  selected (buttons_frame (recognition_frame a)) e = Some s ->
  let a' := mainloop str_lower (sels ++ select_and_advance e) a in
  recognition_choices (state a')
  = recognition_choices (state a)
    ++ [{| round_index := r + 1; selection := str_or s Aucun |}]
  /\ ((r + 1 < length (recognition_rounds (state a)))%nat ->
      raised a' = recognition
      /\ current_round (recognition_frame a') = Some (r + 1)%nat
      /\ next_button (recognition_frame a') = DISABLED
      /\ selection_var (recognition_frame a') = []
      /\ recognition_rounds (state a) !! (r + 1)%nat
         = Some (buttons_frame (recognition_frame a')))
  /\ ((length (recognition_rounds (state a)) <= r + 1)%nat ->
      raised a' = translation
      /\ translation_attempts (state a') = []
      /\ index (translation_frame a') = 0%nat).
Proof.
  intros Htop Hcr Hsels Hs.
  destruct (select_advance_step sels e a r s Htop Hcr Hsels Hs)
    as (H1 & _ & H2 & H3).
  done.
Qed.

Lemma pass_from (rounds_left : list (list pystr)) :
  forall (picks : list event) (a : App) (r : nat),
    raised a = recognition ->
    current_round (recognition_frame a) = Some r ->
    drop r (recognition_rounds (state a)) = rounds_left ->
    rounds_left <> [] ->
    recognition_rounds (state a) !! r
    = Some (buttons_frame (recognition_frame a)) ->
    Forall2 (fun symbols e => is_Some (selected symbols e)) rounds_left picks ->
    let a' := mainloop str_lower (concat (select_and_advance <$> picks)) a in
    recognition_choices (state a')
    = recognition_choices (state a) ++ pass_choices r rounds_left picks
    /\ raised a' = translation
    /\ translation_attempts (state a') = [].
Proof.
  induction rounds_left as [|symbols rl IH];
    intros picks a r Htop Hcr Hdrop Hne Hbf Hpicks; [done|].
  destruct picks as [|e pl]; [by apply Forall2_length in Hpicks|].
  apply Forall2_cons_1 in Hpicks as [[s Hs] Hpl].
  rewrite (drop_S _ _ _ Hbf) in Hdrop. injection Hdrop as Hsym Hdrop.
  rewrite Hsym in Hbf.
  assert (Hlen : length (recognition_rounds (state a)) = (r + S (length rl))%nat).
  { apply lookup_lt_Some in Hbf as Hlt. rewrite <- Hdrop, length_drop. lia. }
  rewrite <- Hsym in Hs.
  pose proof (select_advance_step [] e a r s Htop Hcr (Forall_nil_2 _) Hs)
    as Hstep.
  cbv zeta in Hstep. rewrite app_nil_l in Hstep.
  cbv zeta. rewrite fmap_cons, concat_cons, (mainloop_app str_lower).
  set (a1 := mainloop str_lower (select_and_advance e) a) in *. clearbody a1.
  destruct Hstep as (Hch & Hrd & Hmore & Hlast).
  cbn [pass_choices]. rewrite Hsym in Hs. rewrite Hs. cbn [default].
  destruct rl as [|symbols2 rl].
  - apply Forall2_nil_inv_l in Hpl as ->. cbn.
    destruct Hlast as (Htop1 & Hatt1 & _); [simpl in Hlen; lia|].
    by rewrite Hch.
  - destruct Hmore as (Htop1 & Hcr1 & _ & _ & Hbf1); [simpl in Hlen; lia|].
    destruct (IH pl a1 (S r)) as (Hch2 & Htop2 & Hatt2); try done.
    + by rewrite <- Nat.add_1_r.
    + by rewrite Hrd.
    + by rewrite Hrd, <- Nat.add_1_r.
    + rewrite Hch2, Hch, <- app_assoc. done.
Qed.

Lemma pass_choices_length (r : nat) (rounds_left : list (list pystr))
    (picks : list event) :
  length rounds_left = length picks ->
  length (pass_choices r rounds_left picks) = length rounds_left.
Proof.
  revert r picks. induction rounds_left as [|symbols rl IH];
    intros r [|e pl] Hlen; simpl in *; try done.
  by rewrite IH by lia.
Qed.

(** X2: a whole pass.  When there is at least one round and the user,
    after "Commencer", makes for each round one selection that reaches a
    button or "Aucun" and presses "Suivant", the history holds one choice
    per round, in round order, each with what was selected for its round,
    and the translation stage has started with no attempt yet. *)
Theorem recognition_pass (lbl : pystr) (rounds : list (list pystr))
    (words : list pystr) (dict : pydict) (picks : list event) :
  rounds <> [] ->
  Forall2 (fun symbols e => is_Some (selected symbols e)) rounds picks ->
  let a' := mainloop str_lower
              (press_commencer :: concat (select_and_advance <$> picks))
              (TranslationAlienApp (new_state lbl rounds words dict)) in
  recognition_choices (state a') = pass_choices 0 rounds picks
  /\ length (recognition_choices (state a')) = length rounds
  /\ raised a' = translation
  /\ translation_attempts (state a') = [].
Proof.
  intros Hne Hpicks. cbv zeta.
  change (mainloop str_lower
            (press_commencer :: concat (select_and_advance <$> picks))
            (TranslationAlienApp (new_state lbl rounds words dict)))
    with (mainloop str_lower (concat (select_and_advance <$> picks))
            (after (callback str_lower press_commencer
                      (TranslationAlienApp (new_state lbl rounds words dict))))).
  destruct rounds as [|symbols rounds]; [done|].
  destruct (pass_from (symbols :: rounds) picks
              (after (callback str_lower press_commencer
                        (TranslationAlienApp
                           (new_state lbl (symbols :: rounds) words dict))))
              0%nat) as (Hch & Htop & Hatt); try done.
  rewrite Hch. split_and!; try done.
  simpl recognition_choices. rewrite app_nil_l.
  apply pass_choices_length. by apply Forall2_length in Hpicks.
Qed.

Lemma commencer_raises (a : App) :
  recognition_rounds (state a) = [] ->
  exists a', callback str_lower press_commencer a = Raised IndexError a'.
Proof.
  destruct a as [[lbl rounds words dict choices attempts] rf tf trf top].
  simpl. intros ->. unfold callback. run_methods. eauto.
Qed.

Lemma suivant_raises (a : App) :
  next_button (recognition_frame a) = NORMAL ->
  current_round (recognition_frame a) = None ->
  callback str_lower press_suivant a = Raised AttributeError a.
Proof.
  intros Hnb Hcr. unfold callback, bind, get. cbn beta iota. rewrite Hnb.
  unfold RecognitionFrame_next_round, read_current_round, bind, get.
  by rewrite Hcr.
Qed.

Lemma callback_outcome (e : event) (a : App) :
  returns (callback str_lower e a) = true
  \/ (e = press_commencer /\ recognition_rounds (state a) = [])
  \/ (e = press_suivant
      /\ next_button (recognition_frame a) = NORMAL
      /\ current_round (recognition_frame a) = None).
Proof.
  destruct e; unfold callback, bind, get, ret; cbn beta iota.
  - destruct a as [[lbl rounds words dict choices attempts] rf tf trf top].
    run_methods.
    destruct rounds as [|symbols rounds]; simpl; [right; left | left]; done.
  - left. by destruct (buttons_frame (recognition_frame a) !! i).
  - by left.
  - destruct (next_button (recognition_frame a)) eqn:Hnb; [|by left].
    destruct (current_round (recognition_frame a)) as [r|] eqn:Hcr;
      [left | by right; right].
    destruct (decide (r + 1 < length (recognition_rounds (state a)))%nat)
      as [Hlt|Hge].
    + by destruct (next_round_more a r Hcr Hlt) as (a' & s' & -> & _).
    + destruct (next_round_last a r Hcr) as (a' & -> & _); [lia | done].
  - by left.
  - left. by destruct (submit_state a) as (a' & -> & _).
  - by left.
  - by left.
  - left. by destruct (translate_custom_state a) as [m ->].
  - left. by destruct (translate_french_state str_lower a) as [m ->].
Qed.

(** X4: when a callback raises.  Whatever the state, a command raises
    in two cases only: "Commencer" when no round is configured
    ([IndexError]), and "Suivant", enabled, when [on_show] has not yet
    set [current_round] ([AttributeError], the state being left as it
    was); in every other case it returns.  In a session from start-up
    in which each action is made on the frame shown, the second case
    does not arise. *)
Theorem callback_raises_iff (e : event) (a : App) :
  (returns (callback str_lower e a) = false
   <-> (e = press_commencer /\ recognition_rounds (state a) = [])
       \/ (e = press_suivant
           /\ next_button (recognition_frame a) = NORMAL
           /\ current_round (recognition_frame a) = None))
  /\ (e = press_commencer -> recognition_rounds (state a) = [] ->
      exists a', callback str_lower e a = Raised IndexError a')
  /\ (e = press_suivant ->
      next_button (recognition_frame a) = NORMAL ->
      current_round (recognition_frame a) = None ->
      callback str_lower e a = Raised AttributeError a)
  /\ (forall lbl rounds words dict events,
        a = mainloop str_lower events
              (TranslationAlienApp (new_state lbl rounds words dict)) ->
        shown_only str_lower (events ++ [e])
          (TranslationAlienApp (new_state lbl rounds words dict)) = true ->
        returns (callback str_lower e a) = true
        \/ (e = press_commencer /\ rounds = [])).
Proof.
  split_and!.
  - split.
    + intros Hret.
      destruct (callback_outcome e a) as [H | H]; [congruence | done].
    + intros [[-> Hr] | (-> & Hnb & Hcr)].
      * by destruct (commencer_raises a Hr) as [a' ->].
      * by rewrite suivant_raises.
  - intros ->. apply commencer_raises.
  - intros ->. apply suivant_raises.
  - intros lbl rounds words dict events -> Hshown.
    rewrite (shown_only_app str_lower) in Hshown.
    apply andb_true_iff in Hshown as [Hshown Htop].
    cbn [shown_only] in Htop. rewrite andb_true_r in Htop.
    apply bool_decide_eq_true_1 in Htop.
    pose proof (mainloop_inv str_lower rounds events _
                  (TranslationAlienApp_inv lbl rounds words dict) Hshown)
      as (Hr & _ & Hst).
    destruct (callback_outcome e
                (mainloop str_lower events
                   (TranslationAlienApp (new_state lbl rounds words dict))))
      as [H | [[-> H] | (-> & _ & Hcr)]]; [by left | |].
    + right. by rewrite <- Hr.
    + cbn [frame_of] in Htop. rewrite Htop in Hst.
      destruct Hst as (r & symbols & Hcr' & _). congruence.
Qed.

End Rounds.

Lemma select_then_advance_witness :
  recognition_choices
    (state (mainloop latin_lower
              ([press_symbol 0; press_aucun; press_symbol 9]
               ++ select_and_advance (press_symbol 3))
              recognition_app))
  = [{| round_index := 1; selection := py "Ψ" |}].
Proof.
  assert (Hsels : Forall (fun e => is_selection e = true)
                    [press_symbol 0; press_aucun; press_symbol 9])
    by (repeat constructor).
  destruct (select_then_advance latin_lower _ (press_symbol 3)
              recognition_app 0%nat (py "Ψ") eq_refl eq_refl Hsels eq_refl)
    as (Hch & _).
  rewrite Hch. vm_compute. reflexivity.
Defined.

Lemma recognition_pass_witness :
  length (recognition_choices
            (state (mainloop latin_lower
                      (press_commencer
                         :: concat (select_and_advance
                                      <$> [press_symbol 0; press_aucun;
                                           press_symbol 5; press_symbol 1;
                                           press_aucun; press_symbol 2;
                                           press_symbol 4]))
                      default_app)))
  = 7%nat.
Proof.
  destruct (recognition_pass latin_lower (py "HoloGlyph") default_rounds
              [py "soleil"; py "lune"; py "étoile"; py "terre"; py "eau"]
              default_dictionary
              [press_symbol 0; press_aucun; press_symbol 5; press_symbol 1;
               press_aucun; press_symbol 2; press_symbol 4])
    as (_ & Hlen & _).
  - discriminate.
  - repeat constructor; vm_compute; eauto.
  - exact Hlen.
Defined.

Lemma callback_raises_iff_witness :
  callback latin_lower press_suivant
    (mainloop latin_lower [press_aucun] default_app)
  = Raised AttributeError (mainloop latin_lower [press_aucun] default_app)
  /\ returns (callback latin_lower press_suivant
                (mainloop latin_lower [press_commencer; press_aucun]
                   default_app))
     = true.
Proof.
  destruct (callback_raises_iff latin_lower press_suivant
              (mainloop latin_lower [press_aucun] default_app))
    as (_ & _ & Hraise & _).
  destruct (callback_raises_iff latin_lower press_suivant
              (mainloop latin_lower [press_commencer; press_aucun]
                 default_app))
    as (_ & _ & _ & Hshown).
  split.
  - apply Hraise; reflexivity.
  - destruct (Hshown (py "HoloGlyph") default_rounds
                [py "soleil"; py "lune"; py "étoile"; py "terre"; py "eau"]
                default_dictionary [press_commencer; press_aucun]
                eq_refl)
      as [Hret | [Hne _]]; [vm_compute; reflexivity | exact Hret |].
    discriminate Hne.
Defined.

(** ** The translation stage over a session *)

Lemma attempts_ok_nil (words : list pystr) : attempts_ok words [].
Proof. intros i att H. by rewrite lookup_nil in H. Qed.

Lemma attempts_ok_snoc (words : list pystr) (l : list TranslationAttempt)
    (w t : pystr) :
  attempts_ok words l ->
  words !! length l = Some w ->
  attempts_ok words (l ++ [{| french_word := w; typed_glyphs := strip t |}]).
Proof.
  intros Hok Hw i att Hi.
  destruct (decide (i < length l)%nat) as [Hlt|Hge].
  - rewrite lookup_app_l in Hi by done. by apply Hok.
  - rewrite lookup_app_r in Hi by lia.
    destruct (i - length l)%nat as [|n] eqn:Hn; [|done].
    injection Hi as <-. simpl. replace i with (length l) by lia.
    split; [done | apply strip_idem].
Qed.

Lemma attempts_ok_length (words : list pystr) (l : list TranslationAttempt) :
  attempts_ok words l -> (length l <= length words)%nat.
Proof.
  intros Hok. destruct l as [|att l _] using rev_ind; [simpl; lia|].
  destruct (Hok (length l) att) as [Hw _].
  { by rewrite lookup_app_r, Nat.sub_diag by lia. }
  apply lookup_lt_Some in Hw. rewrite length_app. simpl. lia.
Qed.

Lemma submit_tinv (words : list pystr) (a : App) :
  translation_inv words a ->
  translation_inv words (after (TranslationFrame_submit a)).
Proof.
  intros (Hw & Hok & Hidx).
  destruct a as [[lbl rounds words0 dict choices attempts] rf [i inp pl] trf top].
  simpl in *. subst. unfold translation_inv. run_methods.
  case_bool_decide as Hend; simpl; [done|].
  destruct (lookup_lt_is_Some_2 words (length attempts)) as [w Hlk]; [lia|].
  rewrite Hlk. simpl.
  pose proof (attempts_ok_snoc words attempts w inp Hok Hlk) as Hok'.
  case_bool_decide as Hend'; simpl;
    [split_and!; [done | done | by rewrite length_app] |].
  destruct (lookup_lt_is_Some_2 words (length attempts + 1)) as [w' ->];
    [lia|].
  simpl. split_and!; [done | done |]. rewrite length_app. done.
Qed.

Lemma next_round_tinv (words : list pystr) (a : App) :
  translation_inv words a ->
  translation_inv words (after (RecognitionFrame_next_round a)).
Proof.
  intros (Hw & Hok & Hidx).
  destruct (current_round (recognition_frame a)) as [r|] eqn:Hcr.
  - destruct (decide (r + 1 < length (recognition_rounds (state a)))%nat)
      as [Hlt|Hge].
    + destruct (next_round_more a r Hcr Hlt)
        as (a' & symbols' & -> & Htop' & _ & _ & _ & _ & _ & _ & Hw' & Hatt
            & Htf).
      simpl. unfold translation_inv. rewrite Hw', Hatt, Htf.
      split_and!; done.
    + destruct (next_round_last a r Hcr)
        as (a' & -> & Htop' & Hatt & Hi & _ & Hw'); [lia|].
      simpl. unfold translation_inv. rewrite Hw', Hatt, Hi.
      split_and!; [done | apply attempts_ok_nil | done].
  - unfold RecognitionFrame_next_round, read_current_round, bind, get.
    rewrite Hcr. simpl. unfold translation_inv.
    split_and!; done.
Qed.

Section TranslationSession.

Variable str_lower : pystr -> pystr.

Lemma callback_preserves_tinv (words : list pystr) (e : event) (a : App) :
  translation_inv words a ->
  translation_inv words (after (callback str_lower e a)).
Proof.
  intros Hinv.
  destruct e; unfold callback, bind, get, ret; cbn beta iota.
  - (* Commencer *)
    destruct Hinv as (Hw & Hok & Hidx).
    destruct a as [[lbl rounds words0 dict choices attempts] rf tf trf top].
    simpl in *. subst. unfold translation_inv. run_methods.
    destruct rounds as [|symbols rounds]; simpl; split_and!; done.
  - (* a symbol *)
    destruct (buttons_frame (recognition_frame a) !! i) as [s|]; [|done].
    destruct Hinv as (Hw & Hok & Hidx).
    destruct a as [st [sv cr rl bf nb] tf trf top].
    simpl in *. subst. unfold translation_inv. simpl. split_and!; done.
  - (* Aucun *)
    destruct Hinv as (Hw & Hok & Hidx).
    destruct a as [st [sv cr rl bf nb] tf trf top].
    simpl in *. subst. unfold translation_inv. simpl. split_and!; done.
  - (* Suivant *)
    destruct (next_button (recognition_frame a)); [|done].
    by apply next_round_tinv.
  - (* typing in the translation entry *)
    destruct Hinv as (Hw & Hok & Hidx).
    destruct a as [st rf [i inp pl] trf top]. simpl in *.
    unfold translation_inv. simpl. split_and!; done.
  - (* Valider *)
    by apply submit_tinv.
  - destruct Hinv as (Hw & Hok & Hidx).
    destruct a as [st rf tf trf top]. simpl in *. subst.
    unfold translation_inv. simpl. split_and!; done.
  - destruct Hinv as (Hw & Hok & Hidx).
    destruct a as [st rf tf trf top]. simpl in *. subst.
    unfold translation_inv. simpl. split_and!; done.
  - destruct (translate_custom_state a) as [m ->].
    destruct Hinv as (Hw & Hok & Hidx).
    destruct a as [st rf tf trf top]. simpl in *. subst.
    unfold translation_inv. simpl. split_and!; done.
  - destruct (translate_french_state str_lower a) as [m ->].
    destruct Hinv as (Hw & Hok & Hidx).
    destruct a as [st rf tf trf top]. simpl in *. subst.
    unfold translation_inv. simpl. split_and!; done.
Qed.

Lemma mainloop_tinv (words : list pystr) (events : list event) (a : App) :
  translation_inv words a ->
  translation_inv words (mainloop str_lower events a).
Proof.
  revert a. induction events as [|e events IH]; intros a Ha; [done|].
  apply IH. by apply callback_preserves_tinv.
Qed.

(** X12: in every session, whatever the user does, the history of
    translation attempts is well formed: the attempt at position [i] is
    for the practice word at position [i] and its text has no white space
    at either end, so there are never more attempts than practice words;
    and while the translation stage is shown, the index of the word
    asked for is the number of attempts made. *)
Theorem translation_attempts_invariant (lbl : pystr)
    (rounds : list (list pystr)) (words : list pystr) (dict : pydict)
    (events : list event) :
  let a := mainloop str_lower events
             (TranslationAlienApp (new_state lbl rounds words dict)) in
  attempts_ok words (translation_attempts (state a))
  /\ (length (translation_attempts (state a)) <= length words)%nat
  /\ (raised a = translation ->
      index (translation_frame a) = length (translation_attempts (state a))).
Proof.
  intros a.
  assert (Ha : translation_inv words a).
  { apply mainloop_tinv. split_and!; [done | apply attempts_ok_nil | done]. }
  destruct Ha as (_ & Hok & Hidx).
  split_and!; [done | by apply attempts_ok_length | by intros _].
Qed.

Lemma submit_last_step (a : App) (t w : pystr) :
  raised a = translation ->
  practice_words (state a) !! index (translation_frame a) = Some w ->
  S (index (translation_frame a)) = length (practice_words (state a)) ->
  let a' := mainloop str_lower (type_and_submit t) a in
  raised a' = translator
  /\ summary_text (translator_frame a')
     = join [0x0A] (summary_lines (state a'))
  /\ custom_var (translator_frame a') = []
  /\ french_var (translator_frame a') = []
  /\ feedback_var (translator_frame a') = []
  /\ translation_attempts (state a')
     = translation_attempts (state a) ++ [attempt_of w t]
  /\ recognition_choices (state a') = recognition_choices (state a).
Proof.
  destruct a as [[lbl rounds words dict choices attempts] rf [i inp pl] trf top].
  simpl. intros -> Hw Hlen.
  pose proof (lookup_lt_Some _ _ _ Hw) as Hlt.
  unfold mainloop, type_and_submit, callback. run_methods.
  rewrite bool_decide_eq_false_2 by lia. rewrite Hw. simpl.
  rewrite bool_decide_eq_true_2 by lia. simpl.
  split_and!; reflexivity.
Qed.

Lemma submit_to_end (texts : list pystr) (a : App) :
  raised a = translation ->
  texts <> [] ->
  (index (translation_frame a) + length texts
   = length (practice_words (state a)))%nat ->
  let a' := mainloop str_lower (concat (type_and_submit <$> texts)) a in
  raised a' = translator
  /\ summary_text (translator_frame a')
     = join [0x0A] (summary_lines (state a'))
  /\ custom_var (translator_frame a') = []
  /\ french_var (translator_frame a') = []
  /\ feedback_var (translator_frame a') = []
  /\ recognition_choices (state a') = recognition_choices (state a).
Proof.
  revert a. induction texts as [|t texts IH]; intros a Htop Hne Hlen; [done|].
  simpl in Hlen.
  destruct (lookup_lt_is_Some_2 (practice_words (state a))
              (index (translation_frame a))) as [w Hw]; [lia|].
  cbv zeta. rewrite fmap_cons, concat_cons, mainloop_app.
  destruct texts as [|t' texts].
  - cbn [fmap list_fmap concat mainloop fold_left].
    destruct (submit_last_step a t w Htop Hw)
      as (H1 & H2 & H3 & H4 & H5 & _ & H6); [simpl in Hlen; lia|].
    done.
  - pose proof (submit_step str_lower a t w Htop Hw) as Hstep.
    cbv zeta in Hstep.
    set (a1 := mainloop str_lower (type_and_submit t) a) in *.
    clearbody a1.
    destruct Hstep as (_ & Hidx & Hwords & Hch & Hraised).
    destruct (IH a1) as (H1 & H2 & H3 & H4 & H5 & H6); [ | done | | ].
    + apply Hraised. simpl in Hlen. lia.
    + rewrite Hidx, Hwords. simpl in *. lia.
    + split_and!; try done. by rewrite H6.
Qed.

(** X11: the last word of the translation stage opens the translator.
    When there is at least one practice word, activating the translation
    stage and submitting one text per word ends on the translator frame,
    whose summary is the one computed from the final state (all the
    attempts, the last one included, and the recognition choices as they
    were), with both entries and the feedback empty. *)
Theorem submits_open_translator (a : App) (texts : list pystr) :
  practice_words (state a) <> [] ->
  length texts = length (practice_words (state a)) ->
  let a' := mainloop str_lower (concat (type_and_submit <$> texts))
              (after (show_frame translation a)) in
  raised a' = translator
  /\ summary_text (translator_frame a')
     = join [0x0A] (summary_lines (state a'))
  /\ translation_attempts (state a')
     = zip_with attempt_of (practice_words (state a)) texts
  /\ recognition_choices (state a') = recognition_choices (state a)
  /\ custom_var (translator_frame a') = []
  /\ french_var (translator_frame a') = []
  /\ feedback_var (translator_frame a') = [].
Proof.
  intros Hne Hlen.
  destruct (show_translation_state a)
    as (_ & Htop & Hidx & Hatt & Hwords & Hch & _).
  cbv zeta in Htop, Hidx, Hatt, Hwords, Hch.
  destruct (submit_to_end texts (after (show_frame translation a)) Htop)
    as (H1 & H2 & H3 & H4 & H5 & H6).
  { intros ->. by destruct (practice_words (state a)). }
  { rewrite Hidx, Hwords. simpl. lia. }
  cbv zeta. split_and!; try done.
  - rewrite (submit_all str_lower); [| done | rewrite Hidx, Hwords; simpl; lia].
    by rewrite Hatt, Hidx, Hwords.
  - by rewrite H6.
Qed.

End TranslationSession.

Lemma translation_attempts_invariant_witness :
  (length (translation_attempts
             (state (mainloop latin_lower
                       (press_commencer
                          :: concat (select_and_advance
                                       <$> replicate 7 press_aucun)
                          ++ type_and_submit (py " ☉ "))
                       default_app)))
   <= 5)%nat.
Proof.
  destruct (translation_attempts_invariant latin_lower (py "HoloGlyph")
              default_rounds
              [py "soleil"; py "lune"; py "étoile"; py "terre"; py "eau"]
              default_dictionary
              (press_commencer
                 :: concat (select_and_advance <$> replicate 7 press_aucun)
                 ++ type_and_submit (py " ☉ ")))
    as (_ & Hlen & _).
  exact Hlen.
Defined.

Lemma submits_open_translator_witness :
  raised (mainloop latin_lower
            (concat (type_and_submit
                       <$> [py "☉"; py " ☾ "; []; py "x"; py "≈"]))
            (after (show_frame translation default_app)))
  = translator.
Proof.
  destruct (submits_open_translator latin_lower default_app
              [py "☉"; py " ☾ "; []; py "x"; py "≈"])
    as (Htop & _).
  - vm_compute. discriminate.
  - vm_compute. reflexivity.
  - exact Htop.
Defined.

(** ** The recognition choices, whatever commands run *)






Section Commands.

Variable str_lower : pystr -> pystr.





End Commands.


